(** * Barycentric kernel of the Parks-McClellan exchange (src/src/barycentric.cpp)

    A shallow embedding of the arbitrary-precision entry points of
    [barycentric.cpp] and the properties the specification states about
    them.

    Numbers.  An [mpfr::mpreal] is modelled by an exact rational ([Qc], the
    canonical rationals, so that the program's [==] is Leibniz equality);
    the properties below are statements "in exact arithmetic", rounding to
    the ambient precision is not part of the model.  Division is the total
    division of the field; the non-finite values of the library are not
    modelled.  The statements about quotients equate the quotient the code
    forms with the quotient the specification writes, term by term; the
    statements that need a divisor to be non-zero (no weight is zero, a
    sample gives delta back) carry the hypotheses that make it so.

    Effects.  The only state the file threads is the ambient default
    precision of the arbitrary-precision library, read and written through
    [get_default_prec] and [set_default_prec].  Indexing a [std::vector]
    outside its bounds is undefined behaviour in the source and is modelled
    by the failure of the computation. *)

From Stdlib Require Import ZArith QArith Qcanon List Bool Arith Lia Field.
Import ListNotations.

Set Implicit Arguments.

(* ------------------------------------------------------------------ *)
(** ** Numbers *)

Abbreviation mpreal := Qc (only parsing).

Module Num.

Definition zero : mpreal := Q2Qc 0.
Definition one : mpreal := Q2Qc 1.
Definition two : mpreal := Q2Qc 2.

(** [a << k] on an mpreal multiplies by [2^k]. *)
Definition shl (a : mpreal) (k : nat) : mpreal := (a * two ^ k)%Qc.

(** [fma(a, b, c)] *)
Definition fma (a b c : mpreal) : mpreal := (a * b + c)%Qc.

(** [a == b] *)
Definition eqb (a b : mpreal) : bool := Qeq_bool a b.

(** [a <= b] *)
Definition leb (a b : mpreal) : bool := Qle_bool a b.

(** Sum and product of a list of numbers, the [Σ] and [Π] of the
    specification. *)
Definition sum (l : list mpreal) : mpreal := fold_right Qcplus zero l.
Definition prod (l : list mpreal) : mpreal := fold_right Qcmult one l.

End Num.

(* ------------------------------------------------------------------ *)
(** ** [std::size_t] and [std::vector] *)

Module SizeT.

(** [a - b] on [std::size_t] (64 bits): the difference wraps around.
    Vector lengths and the indices below them are kept as [nat]; this
    subtraction is the only place of the file where an index expression can
    leave the range of [std::size_t]. *)
Definition sub (a b : nat) : nat :=
  Z.to_nat ((Z.of_nat a - Z.of_nat b) mod 2 ^ 64).

End SizeT.

Module Vec.

(** [v[i]] read: outside the bounds the behaviour is undefined. *)
Definition get {A : Type} (v : list A) (i : nat) : option A := nth_error v i.

(** [v[i] = a]: outside the bounds the behaviour is undefined. *)
Fixpoint set {A : Type} (v : list A) (i : nat) (a : A) : option (list A) :=
  match v, i with
  | [], _ => None
  | _ :: t, O => Some (a :: t)
  | h :: t, S i' =>
      match set t i' a with
      | Some t' => Some (h :: t')
      | None => None
      end
  end.

(** [std::vector<mpreal> w(n)]: [n] default-constructed numbers. *)
Definition make (n : nat) : list mpreal := repeat Num.zero n.

End Vec.

(* ------------------------------------------------------------------ *)
(** ** The ambient precision *)

Definition mp_prec_t : Set := Z.

(** The default argument [prec = 165ul] of every entry point. *)
Definition default_prec : mp_prec_t := 165%Z.

(** A computation reads and writes the ambient default precision and may
    run into undefined behaviour ([None]). *)
Definition M (A : Type) : Type := mp_prec_t -> option (A * mp_prec_t).

Definition ret {A} (a : A) : M A := fun s => Some (a, s).

Definition bind {A B} (m : M A) (k : A -> M B) : M B :=
  fun s => match m s with
           | Some (a, s') => k a s'
           | None => None
           end.

Notation "x <- m ;; k" := (bind m (fun x => k))
  (at level 61, m at next level, right associativity).
Notation "m ;;; k" := (bind m (fun _ => k))
  (at level 61, right associativity).

(** Modelled from the spec: [mpreal::get_default_prec] and
    [mpreal::set_default_prec] belong to the arbitrary-precision library;
    the ambient precision is one process-wide cell that the first reads and
    the second overwrites. *)
Definition get_default_prec : M mp_prec_t := fun s => Some (s, s).
Definition set_default_prec (p : mp_prec_t) : M unit := fun _ => Some (tt, p).

(** A pure step that may be undefined. *)
Definition lift {A} (o : option A) : M A :=
  fun s => match o with
           | Some a => Some (a, s)
           | None => None
           end.

(* ------------------------------------------------------------------ *)
(** ** Bands *)

Inductive BandSpace : Set := FREQ | CHEBY.

(** Modelled from the spec: [Band] is declared in band.h; a band has its
    two bounds, the coordinate space its functions work in, and an
    amplitude and a weight function taking the space and a position. *)
Record Band : Type := mkBand {
  start : mpreal;
  stop : mpreal;
  space : BandSpace;
  amplitude : BandSpace -> mpreal -> mpreal;
  weight : BandSpace -> mpreal -> mpreal
}.

(** [xVal >= it.start && xVal <= it.stop] *)
Definition in_band (it : Band) (xVal : mpreal) : bool :=
  Num.leb (start it) xVal && Num.leb xVal (stop it).

(** [computeIdealResponseAndWeight]: [D] and [W] are in-out parameters;
    the result is their value when the function returns. *)
Fixpoint computeIdealResponseAndWeight (D W xVal : mpreal) (bands : list Band)
  : mpreal * mpreal :=
  match bands with
  | [] => (D, W)
  | it :: rest =>
      if in_band it xVal
      then (amplitude it (space it) xVal, weight it (space it) xVal)
      else computeIdealResponseAndWeight D W xVal rest
  end.

(* ------------------------------------------------------------------ *)
(** ** barycentricWeights *)

(** [step = (x.size() - 2) / 15 + 1] *)
Definition stride (n : nat) : nat := (SizeT.sub n 2 / 15 + 1)%nat.

(** [for (k = j; k < x.size(); k += step) if (k != i) denom *= ((xi - x[k]) << 1);]
    Every turn moves [k] forward by [step >= 1], so [x.size()] turns of
    fuel are never used up (see [stride_loop_fuel]).  With
    [k < x.size()] and [step <= x.size()] (at least two nodes) [k + step]
    stays far below the range of [std::size_t]. *)
Fixpoint stride_loop (fuel : nat) (x : list mpreal) (i step k : nat)
  (xi denom : mpreal) : mpreal :=
  match fuel with
  | O => denom
  | S fuel' =>
      match Vec.get x k with
      | None => denom
      | Some xk =>
          stride_loop fuel' x i step (k + step) xi
            (if Nat.eqb k i then denom
             else (denom * Num.shl (xi - xk) 1)%Qc)
      end
  end.

(** [for (j = 0; j < step; ++j) ...]: [cnt] turns are left, [j] is the
    current group. *)
Fixpoint group_loop (cnt : nat) (x : list mpreal) (i step j : nat)
  (xi denom : mpreal) : mpreal :=
  match cnt with
  | O => denom
  | S cnt' =>
      group_loop cnt' x i step (S j) xi
        (stride_loop (length x) x i step j xi denom)
  end.

(** [for (i = 0; i < x.size(); ++i) { ...; w[i] = one / denom; }] *)
Fixpoint weights_loop (cnt : nat) (x : list mpreal) (step i : nat)
  (w : list mpreal) : option (list mpreal) :=
  match cnt with
  | O => Some w
  | S cnt' =>
      match Vec.get x i with
      | None => None
      | Some xi =>
          let denom := group_loop step x i step 0 xi Num.one in
          match Vec.set w i (Num.one / denom)%Qc with
          | Some w' => weights_loop cnt' x step (S i) w'
          | None => None
          end
      end
  end.

Definition barycentricWeights (w x : list mpreal) (prec : mp_prec_t)
  : M (list mpreal) :=
  prevPrec <- get_default_prec ;;
  set_default_prec prec ;;;
  w' <- lift (weights_loop (length x) x (stride (length x)) 0 w) ;;
  set_default_prec prevPrec ;;;
  ret w'.

(* ------------------------------------------------------------------ *)
(** ** computeDelta *)

(** The loop shared by the two overloads of [computeDelta]:
    [for (i = 0; i < w.size(); ++i)], with [num], [denom] and the in-out
    locals [D] and [W] carried from one turn to the next.  [buffer] is
    [w[i]], then [w[i] / W], negated when [i % 2 == 0]. *)
Fixpoint delta_loop (cnt i : nat) (w x : list mpreal) (bands : list Band)
  (num denom D W : mpreal) : option (mpreal * mpreal) :=
  match cnt with
  | O => Some (num, denom)
  | S cnt' =>
      match Vec.get x i, Vec.get w i with
      | Some xi, Some wi =>
          let '(D, W) := computeIdealResponseAndWeight D W xi bands in
          let buffer := wi in
          let num := Num.fma buffer D num in
          let buffer := (wi / W)%Qc in
          let buffer := if Nat.eqb (i mod 2) 0 then (- buffer)%Qc else buffer in
          let denom := (denom + buffer)%Qc in
          delta_loop cnt' (S i) w x bands num denom D W
      | _, _ => None
      end
  end.

(** [computeDelta(delta, w, x, bands, prec)], the overload that is given
    the weights. *)
Definition computeDelta_w (w x : list mpreal) (bands : list Band)
  (prec : mp_prec_t) : M mpreal :=
  prevPrec <- get_default_prec ;;
  set_default_prec prec ;;;
  r <- lift (delta_loop (length w) 0 w x bands
               Num.zero Num.zero Num.zero Num.zero) ;;
  let delta := (fst r / snd r)%Qc in
  set_default_prec prevPrec ;;;
  ret delta.

(** [computeDelta(delta, x, bands, prec)], the overload that computes the
    weights itself; it calls [barycentricWeights(w, x)] with the default
    precision argument. *)
Definition computeDelta (x : list mpreal) (bands : list Band)
  (prec : mp_prec_t) : M mpreal :=
  prevPrec <- get_default_prec ;;
  set_default_prec prec ;;;
  w <- barycentricWeights (Vec.make (length x)) x default_prec ;;
  r <- lift (delta_loop (length w) 0 w x bands
               Num.zero Num.zero Num.zero Num.zero) ;;
  let delta := (fst r / snd r)%Qc in
  set_default_prec prevPrec ;;;
  ret delta.

(* ------------------------------------------------------------------ *)
(** ** computeC *)

(** [for (i = 0; i < omega.size(); ++i)]: [W] is negated in place when
    [i % 2 != 0] and, like [D], carried to the next turn. *)
Fixpoint C_loop (cnt i : nat) (C : list mpreal) (delta : mpreal)
  (omega : list mpreal) (bands : list Band) (D W : mpreal)
  : option (list mpreal) :=
  match cnt with
  | O => Some C
  | S cnt' =>
      match Vec.get omega i with
      | None => None
      | Some oi =>
          let '(D, W) := computeIdealResponseAndWeight D W oi bands in
          let W := if negb (Nat.eqb (i mod 2) 0) then (- W)%Qc else W in
          match Vec.set C i (D + delta / W)%Qc with
          | Some C' => C_loop cnt' (S i) C' delta omega bands D W
          | None => None
          end
      end
  end.

Definition computeC (C : list mpreal) (delta : mpreal) (omega : list mpreal)
  (bands : list Band) (prec : mp_prec_t) : M (list mpreal) :=
  prevPrec <- get_default_prec ;;
  set_default_prec prec ;;;
  C' <- lift (C_loop (length omega) 0 C delta omega bands Num.zero Num.zero) ;;
  set_default_prec prevPrec ;;;
  ret C'.

(* ------------------------------------------------------------------ *)
(** ** computeApprox *)

(** How the loop of [computeApprox] ends: at the [return] of the exact
    match, with the value assigned to [Pc], or by running to the end, with
    the two accumulators. *)
Inductive approx_exit : Set :=
| ExactMatch (Pc : mpreal)
| FellThrough (num denom : mpreal).

Fixpoint approx_loop (cnt i : nat) (Pc : mpreal) (x C w : list mpreal)
  (num denom : mpreal) : option approx_exit :=
  match cnt with
  | O => Some (FellThrough num denom)
  | S cnt' =>
      match Vec.get x i with
      | None => None
      | Some xi =>
          if Num.eqb Pc xi then
            match Vec.get C i with
            | Some Ci => Some (ExactMatch Ci)
            | None => None
            end
          else
            match Vec.get w i, Vec.get C i with
            | Some wi, Some Ci =>
                let buff := (wi / (Pc - xi))%Qc in
                approx_loop cnt' (S i) Pc x C w
                  (Num.fma buff Ci num) (denom + buff)%Qc
            | _, _ => None
            end
      end
  end.

Definition computeApprox (omega : mpreal) (x C w : list mpreal)
  (prec : mp_prec_t) : M mpreal :=
  prevPrec <- get_default_prec ;;
  set_default_prec prec ;;;
  let Pc := omega in
  let r := length x in
  e <- lift (approx_loop r 0 Pc x C w Num.zero Num.zero) ;;
  match e with
  | ExactMatch Pc =>
      set_default_prec prevPrec ;;;
      ret Pc
  | FellThrough num denom =>
      let Pc := (num / denom)%Qc in
      set_default_prec prevPrec ;;;
      ret Pc
  end.

(* ------------------------------------------------------------------ *)
(** ** computeError *)

(** The search loop of [computeError]: [Some error] when it leaves through
    the [return] of index [i] with [xVal == x[i]], [None] when it runs to
    the end ([x[i]] is inside the bounds by the loop condition). *)
Fixpoint error_loop (cnt i : nat) (xVal delta : mpreal) (x : list mpreal)
  : option mpreal :=
  match cnt with
  | O => None
  | S cnt' =>
      match Vec.get x i with
      | None => None
      | Some xi =>
          if Num.eqb xVal xi then
            Some (if Nat.eqb (i mod 2) 0 then delta else (- delta)%Qc)
          else error_loop cnt' (S i) xVal delta x
      end
  end.

Definition computeError (xVal delta : mpreal) (x C w : list mpreal)
  (bands : list Band) (prec : mp_prec_t) : M mpreal :=
  prevPrec <- get_default_prec ;;
  set_default_prec prec ;;;
  match error_loop (length x) 0 xVal delta x with
  | Some error =>
      set_default_prec prevPrec ;;;
      ret error
  | None =>
      let '(D, W) :=
        computeIdealResponseAndWeight Num.zero Num.zero xVal bands in
      error <- computeApprox xVal x C w default_prec ;;
      let error := (error - D)%Qc in
      let error := (error * W)%Qc in
      set_default_prec prevPrec ;;;
      ret error
  end.

(* ------------------------------------------------------------------ *)
(** ** The formulas of the specification *)

(** [v_i], for an index inside the vector. *)
Definition at_ (v : list mpreal) (i : nat) : mpreal := nth i v Num.zero.

(** A node lies inside some band. *)
Definition covered (bands : list Band) (xVal : mpreal) : Prop :=
  exists it, In it bands /\ (start it <= xVal)%Qc /\ (xVal <= stop it)%Qc.

(** A node lies outside a band: [xVal < start] or [xVal > stop]. *)
Definition outside (xVal : mpreal) (it : Band) : Prop :=
  (xVal < start it)%Qc \/ (stop it < xVal)%Qc.

(** The band a position belongs to: the first one that contains it. *)
Definition band_of (bands : list Band) (xVal : mpreal) : option Band :=
  find (fun it => in_band it xVal) bands.

(** The ideal amplitude [D] and weight [W] at a position of a band. *)
Definition ideal_D (bands : list Band) (xVal : mpreal) : mpreal :=
  match band_of bands xVal with
  | Some it => amplitude it (space it) xVal
  | None => Num.zero
  end.

Definition ideal_W (bands : list Band) (xVal : mpreal) : mpreal :=
  match band_of bands xVal with
  | Some it => weight it (space it) xVal
  | None => Num.zero
  end.

(** [sign_i = -1] when [i] is even, [+1] when [i] is odd. *)
Definition sign (i : nat) : mpreal :=
  if Nat.even i then (- Num.one)%Qc else Num.one.

(** [W_i']: [W_i] with its sign flipped when [i] is odd. *)
Definition flipped_W (bands : list Band) (x : list mpreal) (i : nat) : mpreal :=
  if Nat.odd i then (- ideal_W bands (at_ x i))%Qc
  else ideal_W bands (at_ x i).

(** [num = Σ_i w_i * D_i] and [denom = Σ_i sign_i * (w_i / W_i)]. *)
Definition delta_num (w x : list mpreal) (bands : list Band) : mpreal :=
  Num.sum (map (fun i => at_ w i * ideal_D bands (at_ x i))%Qc
             (seq 0 (length x))).

Definition delta_denom (w x : list mpreal) (bands : list Band) : mpreal :=
  Num.sum (map (fun i => sign i * (at_ w i / ideal_W bands (at_ x i)))%Qc
             (seq 0 (length x))).

Definition delta_formula (w x : list mpreal) (bands : list Band) : mpreal :=
  (delta_num w x bands / delta_denom w x bands)%Qc.

(** The indices [k != i] below [n]. *)
Definition others (n i : nat) : list nat :=
  filter (fun k => negb (Nat.eqb k i)) (seq 0 n).

(** [Π_{k≠i} 2·(x_i − x_k)] and [weight_i = 1 / Π_{k≠i} 2·(x_i − x_k)]. *)
Definition weight_denom (x : list mpreal) (i : nat) : mpreal :=
  Num.prod (map (fun k => Num.two * (at_ x i - at_ x k))%Qc
              (others (length x) i)).

Definition weight_formula (x : list mpreal) (i : nat) : mpreal :=
  (Num.one / weight_denom x i)%Qc.

Definition weights_formula (x : list mpreal) : list mpreal :=
  map (weight_formula x) (seq 0 (length x)).

(** [ceil(a / b)] on natural numbers. *)
Definition ceil_div (a b : nat) : nat := ((a + b - 1) / b)%nat.

(** What one turn of the innermost loop of [barycentricWeights] multiplies
    [denom] by at index [k]. *)
Definition factor (x : list mpreal) (i : nat) (xi : mpreal) (k : nat) : mpreal :=
  if Nat.eqb k i then Num.one else Num.shl (xi - at_ x k) 1.

(** The product of [g k] over the indices [k < n] that satisfy [P]. *)
Definition prod_where (P : nat -> bool) (g : nat -> mpreal) (n : nat) : mpreal :=
  Num.prod (map g (filter P (seq 0 n))).

(** The indices the innermost loop visits when it starts from [k]:
    [k], [k + step], [k + 2 step], ... *)
Definition on_stride (step k k' : nat) : bool :=
  Nat.leb k k' && Nat.eqb ((k' - k) mod step) 0.

(** The indices of the groups [j], [j + 1], ..., [step - 1]. *)
Definition from_group (step j k' : nat) : bool := Nat.leb j (k' mod step).

(** Sample data: three nodes on a pass band and a stop band. *)
Module Sample.

Definition q (a : Z) (b : positive) : mpreal := Q2Qc (a # b).

Definition passband : Band :=
  mkBand (q (-1) 1) (q 0 1) CHEBY (fun _ _ => q 1 1) (fun _ _ => q 1 1).

Definition stopband : Band :=
  mkBand (q 1 2) (q 1 1) CHEBY (fun _ _ => q 0 1) (fun _ _ => q 10 1).

Definition bands : list Band := [passband; stopband].

Definition nodes : list mpreal := [q (-1) 1; q 0 1; q 1 1].

End Sample.

(** Delta is well defined for a node set and a band model: at least two
    pairwise distinct nodes, each inside a band, no ideal weight zero at a
    node, and a denominator sum that is not zero. *)
Definition delta_well_defined (x : list mpreal) (bands : list Band) : Prop :=
  (2 <= length x)%nat /\ NoDup x /\ Forall (covered bands) x /\
  (forall i, (i < length x)%nat -> ideal_W bands (at_ x i) <> Num.zero) /\
  delta_denom (weights_formula x) x bands <> Num.zero.

(** The round trip of one reference iterate: delta from the nodes, the
    response samples from that delta, delta again from the same nodes and
    bands. *)
Definition round_trip (x : list mpreal) (bands : list Band) (C : list mpreal)
  (prec : mp_prec_t) : M (mpreal * list mpreal * mpreal) :=
  delta <- computeDelta x bands prec ;;
  C' <- computeC C delta x bands prec ;;
  delta' <- computeDelta x bands prec ;;
  ret (delta, C', delta').

(** The same with the weights computed once and handed to the overload of
    [computeDelta] that takes them. *)
Definition round_trip_w (x : list mpreal) (bands : list Band) (C : list mpreal)
  (prec : mp_prec_t) : M (mpreal * list mpreal * mpreal) :=
  w <- barycentricWeights (Vec.make (length x)) x prec ;;
  delta <- computeDelta_w w x bands prec ;;
  C' <- computeC C delta x bands prec ;;
  delta' <- computeDelta_w w x bands prec ;;
  ret (delta, C', delta').

(** A computation leaves the ambient precision as it found it, on every
    path on which it returns. *)
Definition preserves_prec {A} (m : M A) : Prop :=
  forall s, match m s with
            | Some (_, s') => s' = s
            | None => True
            end.

(* ------------------------------------------------------------------ *)
(** ** Further formulas and sample data *)

(** The two sums of the second barycentric form at a query point [q]:
    [Σ_i (w_i / (q − x_i)) * C_i] and [Σ_i w_i / (q − x_i)]. *)
Definition approx_num (q : mpreal) (x C w : list mpreal) : mpreal :=
  Num.sum (map (fun i => (at_ w i / (q - at_ x i)) * at_ C i)%Qc
             (seq 0 (length x))).

Definition approx_denom (q : mpreal) (x w : list mpreal) : mpreal :=
  Num.sum (map (fun i => at_ w i / (q - at_ x i))%Qc (seq 0 (length x))).

(** The indices at which one run of the innermost loop of
    [barycentricWeights] executes its body, in order:
    [for (k = j; k < n; k += step)]. *)
Fixpoint stride_visits (fuel n step k : nat) : list nat :=
  match fuel with
  | O => []
  | S fuel' =>
      if Nat.ltb k n then k :: stride_visits fuel' n step (k + step)
      else []
  end.

(** A position lies outside every band. *)
Definition uncovered (bands : list Band) (xVal : mpreal) : Prop :=
  Forall (outside xVal) bands.

Module Sample2.

(** A band that overlaps the two bands of [Sample]. *)
Definition wideband : Band :=
  mkBand (Sample.q (-1) 1) (Sample.q 1 1) FREQ
    (fun _ _ => Sample.q 5 1) (fun _ _ => Sample.q 7 1).

(** A position in the gap between the pass band and the stop band. *)
Definition gap : mpreal := Sample.q 1 4.

(** Nodes with a repeated entry. *)
Definition repeated : list mpreal :=
  [Sample.q 0 1; Sample.q 1 1; Sample.q 1 1].

(** Nodes of which the second lies in the gap. *)
Definition gapped : list mpreal := [Sample.q 0 1; Sample.q 1 4; Sample.q 1 1].

End Sample2.

(* ================================================================== *)
(** * Properties *)

(* ------------------------------------------------------------------ *)
(** ** Numbers, vectors *)

Lemma Num_eqb_spec (a b : mpreal) : reflect (a = b) (Num.eqb a b).
Proof.
  unfold Num.eqb. destruct (Qeq_bool a b) eqn:E; constructor.
  - apply Qc_is_canon, Qeq_bool_eq, E.
  - intros ->. apply Qeq_bool_neq in E. apply E. reflexivity.
Qed.

Lemma Num_leb_spec (a b : mpreal) : reflect (a <= b)%Qc (Num.leb a b).
Proof.
  unfold Num.leb, Qcle. destruct (Qle_bool a b) eqn:E; constructor.
  - apply Qle_bool_iff, E.
  - intros H. apply Qle_bool_iff in H. congruence.
Qed.

Lemma Num_eqb_refl (a : mpreal) : Num.eqb a a = true.
Proof. destruct (Num_eqb_spec a a); congruence. Qed.

Lemma Num_eqb_neq (a b : mpreal) : a <> b -> Num.eqb a b = false.
Proof. destruct (Num_eqb_spec a b); congruence. Qed.

Lemma Num_two_neq_0 : Num.two <> Num.zero.
Proof. intros H. apply (f_equal this) in H. discriminate H. Qed.

Lemma Num_shl_1 (a : mpreal) : Num.shl a 1 = (Num.two * a)%Qc.
Proof. unfold Num.shl, Num.two. simpl. ring. Qed.

Lemma SizeT_sub_no_wrap (a b : nat) :
  (b <= a)%nat -> (Z.of_nat a < 2 ^ 64)%Z -> SizeT.sub a b = (a - b)%nat.
Proof.
  intros Hle Hlt. unfold SizeT.sub.
  rewrite Z.mod_small by lia. lia.
Qed.

Section VecFacts.
Variable A : Type.
Implicit Types (v : list A) (a : A).

Lemma Vec_set_some v i a :
  (i < length v)%nat -> exists v', Vec.set v i a = Some v'.
Proof.
  revert i. induction v as [|h t IH]; intros [|i] Hi; simpl in *; try lia.
  - eauto.
  - destruct (IH i) as [t' Ht]; [lia|]. rewrite Ht. eauto.
Qed.

Lemma Vec_set_length v v' i a :
  Vec.set v i a = Some v' -> length v' = length v.
Proof.
  revert i v'. induction v as [|h t IH]; intros [|i] v' H; simpl in *;
    try discriminate.
  - injection H as <-. reflexivity.
  - destruct (Vec.set t i a) as [t'|] eqn:E; [|discriminate].
    injection H as <-. simpl. f_equal. eapply IH, E.
Qed.

Lemma Vec_get_set_same v v' i a :
  Vec.set v i a = Some v' -> Vec.get v' i = Some a.
Proof.
  revert i v'. induction v as [|h t IH]; intros [|i] v' H; simpl in *;
    try discriminate.
  - injection H as <-. reflexivity.
  - destruct (Vec.set t i a) as [t'|] eqn:E; [|discriminate].
    injection H as <-. simpl. eapply IH, E.
Qed.

Lemma Vec_get_set_other v v' i k a :
  Vec.set v i a = Some v' -> k <> i -> Vec.get v' k = Vec.get v k.
Proof.
  revert i k v'. induction v as [|h t IH]; intros [|i] k v' H Hk;
    simpl in *; try discriminate.
  - injection H as <-. destruct k; [lia|reflexivity].
  - destruct (Vec.set t i a) as [t'|] eqn:E; [|discriminate].
    injection H as <-. destruct k; simpl; [reflexivity|].
    eapply IH; [exact E|lia].
Qed.

End VecFacts.

Lemma Vec_get_at (v : list mpreal) (i : nat) :
  (i < length v)%nat -> Vec.get v i = Some (at_ v i).
Proof.
  intros Hi. unfold Vec.get, at_. apply nth_error_nth'. exact Hi.
Qed.

Lemma Vec_get_some_at (v : list mpreal) (i : nat) (a : mpreal) :
  Vec.get v i = Some a -> at_ v i = a /\ (i < length v)%nat.
Proof.
  intros H. split.
  - unfold at_. eapply nth_error_nth, H.
  - apply nth_error_Some. unfold Vec.get in H. congruence.
Qed.

Lemma Vec_make_length (n : nat) : length (Vec.make n) = n.
Proof. apply repeat_length. Qed.

(* ------------------------------------------------------------------ *)
(** ** The entry points as functions of the ambient precision

    Each entry point, run from the ambient precision [s], is the result of
    its loop paired with [s] again. *)

Lemma barycentricWeights_run (w x : list mpreal) (prec s : mp_prec_t) :
  barycentricWeights w x prec s =
  match weights_loop (length x) x (stride (length x)) 0 w with
  | Some w' => Some (w', s)
  | None => None
  end.
Proof.
  unfold barycentricWeights, bind, lift, get_default_prec, set_default_prec, ret.
  destruct weights_loop; reflexivity.
Qed.

Lemma computeDelta_w_run (w x : list mpreal) bands (prec s : mp_prec_t) :
  computeDelta_w w x bands prec s =
  match delta_loop (length w) 0 w x bands Num.zero Num.zero Num.zero Num.zero with
  | Some r => Some ((fst r / snd r)%Qc, s)
  | None => None
  end.
Proof.
  unfold computeDelta_w, bind, lift, get_default_prec, set_default_prec, ret.
  destruct delta_loop; reflexivity.
Qed.

Lemma computeDelta_run (x : list mpreal) bands (prec s : mp_prec_t) :
  computeDelta x bands prec s =
  match weights_loop (length x) x (stride (length x)) 0 (Vec.make (length x)) with
  | Some w =>
      match delta_loop (length w) 0 w x bands
              Num.zero Num.zero Num.zero Num.zero with
      | Some r => Some ((fst r / snd r)%Qc, s)
      | None => None
      end
  | None => None
  end.
Proof.
  unfold computeDelta, bind at 1 2 3.
  unfold get_default_prec at 1, set_default_prec at 1.
  rewrite barycentricWeights_run.
  destruct weights_loop as [w|]; [|reflexivity].
  unfold bind, lift, set_default_prec, ret.
  destruct delta_loop; reflexivity.
Qed.

Lemma computeC_run (C : list mpreal) delta omega bands (prec s : mp_prec_t) :
  computeC C delta omega bands prec s =
  match C_loop (length omega) 0 C delta omega bands Num.zero Num.zero with
  | Some C' => Some (C', s)
  | None => None
  end.
Proof.
  unfold computeC, bind, lift, get_default_prec, set_default_prec, ret.
  destruct C_loop; reflexivity.
Qed.

Lemma computeApprox_run (omega : mpreal) x C w (prec s : mp_prec_t) :
  computeApprox omega x C w prec s =
  match approx_loop (length x) 0 omega x C w Num.zero Num.zero with
  | Some (ExactMatch Pc) => Some (Pc, s)
  | Some (FellThrough num denom) => Some ((num / denom)%Qc, s)
  | None => None
  end.
Proof.
  unfold computeApprox, bind, lift, get_default_prec, set_default_prec, ret.
  destruct approx_loop as [[Pc|num denom]|]; reflexivity.
Qed.

Lemma computeError_run (xVal delta : mpreal) x C w bands (prec s : mp_prec_t) :
  computeError xVal delta x C w bands prec s =
  match error_loop (length x) 0 xVal delta x with
  | Some error => Some (error, s)
  | None =>
      let '(D, W) :=
        computeIdealResponseAndWeight Num.zero Num.zero xVal bands in
      match approx_loop (length x) 0 xVal x C w Num.zero Num.zero with
      | Some (ExactMatch Pc) => Some (((Pc - D) * W)%Qc, s)
      | Some (FellThrough num denom) => Some (((num / denom - D) * W)%Qc, s)
      | None => None
      end
  end.
Proof.
  unfold computeError, bind at 1 2.
  unfold get_default_prec at 1, set_default_prec at 1.
  destruct error_loop as [e|]; [reflexivity|].
  destruct computeIdealResponseAndWeight as [D W].
  unfold bind at 1. rewrite computeApprox_run.
  destruct approx_loop as [[Pc|num denom]|]; reflexivity.
Qed.

(* ------------------------------------------------------------------ *)
(** ** The ambient precision is restored *)

(** C9: every arbitrary-precision entry point ([barycentricWeights], both
    overloads of [computeDelta], [computeC], [computeApprox],
    [computeError]), called with any precision argument on any inputs from
    any ambient precision, returns with the ambient precision it was called
    with; this covers the early returns of the exact node match in
    [computeApprox] and [computeError]. *)
Theorem entry_points_restore_precision :
  (forall w x prec, preserves_prec (barycentricWeights w x prec)) /\
  (forall x bands prec, preserves_prec (computeDelta x bands prec)) /\
  (forall w x bands prec, preserves_prec (computeDelta_w w x bands prec)) /\
  (forall C delta omega bands prec,
      preserves_prec (computeC C delta omega bands prec)) /\
  (forall omega x C w prec, preserves_prec (computeApprox omega x C w prec)) /\
  (forall xVal delta x C w bands prec,
      preserves_prec (computeError xVal delta x C w bands prec)).
Proof.
  repeat split; intros; intros s.
  - rewrite barycentricWeights_run. destruct weights_loop; trivial.
  - rewrite computeDelta_run. destruct weights_loop; trivial.
    destruct delta_loop; trivial.
  - rewrite computeDelta_w_run. destruct delta_loop; trivial.
  - rewrite computeC_run. destruct C_loop; trivial.
  - rewrite computeApprox_run.
    destruct approx_loop as [[Pc|num denom]|]; trivial.
  - rewrite computeError_run. destruct error_loop; trivial.
    destruct computeIdealResponseAndWeight as [D W].
    destruct approx_loop as [[Pc|num denom]|]; trivial.
Qed.

(** The early returns themselves: a query equal to the first node leaves
    [computeApprox] and [computeError] through the exact-match [return],
    with the ambient precision restored. *)
Lemma early_returns_restore_precision
  (x0 C0 : mpreal) (x C w : list mpreal) delta bands (prec s : mp_prec_t) :
  computeApprox x0 (x0 :: x) (C0 :: C) w prec s = Some (C0, s) /\
  computeError x0 delta (x0 :: x) C w bands prec s = Some (delta, s).
Proof.
  split.
  - rewrite computeApprox_run. simpl. rewrite Num_eqb_refl. reflexivity.
  - rewrite computeError_run. simpl. rewrite Num_eqb_refl. reflexivity.
Qed.

(* ------------------------------------------------------------------ *)
(** ** The ideal-response lookup *)

Lemma in_band_true (it : Band) (xVal : mpreal) :
  in_band it xVal = true <-> (start it <= xVal)%Qc /\ (xVal <= stop it)%Qc.
Proof.
  unfold in_band. rewrite andb_true_iff.
  destruct (Num_leb_spec (start it) xVal), (Num_leb_spec xVal (stop it));
    intuition congruence.
Qed.

Lemma outside_in_band (it : Band) (xVal : mpreal) :
  outside xVal it -> in_band it xVal = false.
Proof.
  intros Hout. destruct (in_band it xVal) eqn:E; [|reflexivity].
  apply in_band_true in E. destruct E as [Hlo Hhi].
  destruct Hout as [H|H]; exfalso.
  - exact (Qclt_not_le _ _ H Hlo).
  - exact (Qclt_not_le _ _ H Hhi).
Qed.

(** C10: when the query coordinate lies outside every band,
    [computeIdealResponseAndWeight] returns without assigning to [D] and
    [W]: both keep the values they had at entry. *)
Theorem lookup_outside_every_band_keeps_D_W
  (D W xVal : mpreal) (bands : list Band) :
  Forall (outside xVal) bands ->
  computeIdealResponseAndWeight D W xVal bands = (D, W).
Proof.
  induction 1 as [|it rest Hit _ IH]; simpl.
  - reflexivity.
  - rewrite (outside_in_band Hit). exact IH.
Qed.

(** The lookup on a covered position is the amplitude and the weight of
    the first band that contains it, whatever [D] and [W] held. *)
Lemma lookup_covered (D W xVal : mpreal) (bands : list Band) :
  covered bands xVal ->
  computeIdealResponseAndWeight D W xVal bands =
  (ideal_D bands xVal, ideal_W bands xVal).
Proof.
  unfold ideal_D, ideal_W, band_of.
  intros (it & Hin & Hlo & Hhi).
  induction bands as [|b rest IH]; simpl in *; [contradiction|].
  destruct (in_band b xVal) eqn:E; [reflexivity|].
  destruct Hin as [->|Hin].
  - assert (in_band it xVal = true) by (apply in_band_true; auto).
    congruence.
  - apply IH, Hin.
Qed.

(* ------------------------------------------------------------------ *)
(** ** The stride of the grouped product *)

Lemma stride_value (n : nat) :
  (2 <= n)%nat -> (Z.of_nat n < 2 ^ 64)%Z ->
  stride n = ((n - 2) / 15 + 1)%nat.
Proof.
  intros Hn Hlt. unfold stride. rewrite SizeT_sub_no_wrap by assumption.
  reflexivity.
Qed.

Lemma stride_pos (n : nat) : (1 <= stride n)%nat.
Proof. unfold stride. lia. Qed.

(** C4, as the code has it: for a node set of length [n >= 2] the stride
    of the inner loops is [floor((n-2)/15) + 1], that is
    [ceil((n-1)/15)]. *)
Theorem stride_is_floor_plus_one (n : nat) :
  (2 <= n)%nat -> (Z.of_nat n < 2 ^ 64)%Z ->
  stride n = ((n - 2) / 15 + 1)%nat /\ stride n = ceil_div (n - 1) 15.
Proof.
  intros Hn Hlt. rewrite (stride_value Hn Hlt). split; [reflexivity|].
  unfold ceil_div.
  replace (n - 1 + 15 - 1)%nat with ((n - 2) + 1 * 15)%nat by lia.
  rewrite Nat.div_add by lia. reflexivity.
Qed.

Lemma stride_is_floor_plus_one_witness :
  (2 <= 17)%nat /\ (Z.of_nat 17 < 2 ^ 64)%Z /\
  stride 17 = ((17 - 2) / 15 + 1)%nat /\ stride 17 = ceil_div (17 - 1) 15.
Proof.
  split; [lia|]. split; [reflexivity|].
  apply (@stride_is_floor_plus_one 17); [lia|reflexivity].
Defined.

(** C4 as stated fails: two nodes give stride 1, and [ceil((2-2)/15)] is 0
    (likewise 17 nodes give stride 2, and [ceil(15/15)] is 1). *)
Lemma stride_is_not_ceil :
  ~ (forall n, (2 <= n)%nat -> (Z.of_nat n < 2 ^ 64)%Z ->
               stride n = ceil_div (n - 2) 15).
Proof.
  intros H. specialize (H 2%nat (le_n 2) eq_refl).
  vm_compute in H. discriminate H.
Qed.

Lemma lookup_outside_every_band_keeps_D_W_witness :
  Forall (outside (Sample.q 1 4)) Sample.bands /\
  computeIdealResponseAndWeight (Sample.q 7 1) (Sample.q 9 1) (Sample.q 1 4)
    Sample.bands = (Sample.q 7 1, Sample.q 9 1).
Proof.
  assert (H : Forall (outside (Sample.q 1 4)) Sample.bands).
  { apply Forall_cons; [right; reflexivity|].
    apply Forall_cons; [left; reflexivity|]. apply Forall_nil. }
  split; [exact H|].
  apply (lookup_outside_every_band_keeps_D_W _ _ H).
Defined.

(* ------------------------------------------------------------------ *)
(** ** Products over selected indices *)

Lemma prod_app (l1 l2 : list mpreal) :
  Num.prod (l1 ++ l2) = (Num.prod l1 * Num.prod l2)%Qc.
Proof.
  unfold Num.prod, Num.one.
  induction l1 as [|a l1 IH]; simpl; [ring|]. rewrite IH. ring.
Qed.

Lemma prod_filter_split (P Q R : nat -> bool) (g : nat -> mpreal) (l : list nat) :
  (forall k, In k l -> P k = Q k || R k) ->
  (forall k, In k l -> Q k && R k = false) ->
  Num.prod (map g (filter P l)) =
  (Num.prod (map g (filter Q l)) * Num.prod (map g (filter R l)))%Qc.
Proof.
  unfold Num.prod, Num.one.
  induction l as [|a l IH]; intros HP HQR; simpl; [ring|].
  assert (Ha : In a (a :: l)) by (left; reflexivity).
  rewrite (HP a Ha). specialize (HQR a Ha) as Hd.
  assert (IH' := IH (fun k Hk => HP k (or_intror Hk))
                    (fun k Hk => HQR k (or_intror Hk))).
  destruct (Q a), (R a); simpl in *; try discriminate; rewrite IH'; ring.
Qed.

Lemma filter_none (P : nat -> bool) (l : list nat) :
  (forall k, In k l -> P k = false) -> filter P l = [].
Proof.
  induction l as [|a l IH]; intros H; simpl; [reflexivity|].
  rewrite (H a) by (left; reflexivity). apply IH.
  intros k Hk. apply H. right. exact Hk.
Qed.

Lemma filter_all (P : nat -> bool) (l : list nat) :
  (forall k, In k l -> P k = true) -> filter P l = l.
Proof.
  induction l as [|a l IH]; intros H; simpl; [reflexivity|].
  rewrite (H a) by (left; reflexivity). f_equal. apply IH.
  intros k Hk. apply H. right. exact Hk.
Qed.

Lemma filter_eqb_seq (k a n : nat) :
  filter (Nat.eqb k) (seq a n) =
  if Nat.leb a k && Nat.ltb k (a + n) then [k] else [].
Proof.
  revert a. induction n as [|n IH]; intros a; simpl.
  - destruct (Nat.leb_spec a k), (Nat.ltb_spec k (a + 0)); simpl;
      try reflexivity; lia.
  - rewrite IH.
    destruct (Nat.eqb_spec k a) as [->|Hne].
    + destruct (Nat.leb_spec (S a) a); [lia|]. simpl.
      destruct (Nat.leb_spec a a), (Nat.ltb_spec a (a + S n)); simpl;
        try reflexivity; lia.
    + destruct (Nat.leb_spec (S a) k), (Nat.ltb_spec k (S a + n)),
        (Nat.leb_spec a k), (Nat.ltb_spec k (a + S n)); simpl;
        try reflexivity; lia.
Qed.

Lemma prod_where_single (g : nat -> mpreal) (k n : nat) :
  (k < n)%nat -> prod_where (Nat.eqb k) g n = g k.
Proof.
  intros Hk. unfold prod_where. rewrite filter_eqb_seq.
  destruct (Nat.leb_spec 0 k), (Nat.ltb_spec k (0 + n)); try lia.
  unfold Num.prod, Num.one. simpl. ring.
Qed.

Lemma prod_where_none (P : nat -> bool) (g : nat -> mpreal) (n : nat) :
  (forall k, (k < n)%nat -> P k = false) -> prod_where P g n = Num.one.
Proof.
  intros H. unfold prod_where. rewrite filter_none; [reflexivity|].
  intros k Hk. apply in_seq in Hk. apply H. lia.
Qed.

Lemma prod_where_split (P Q R : nat -> bool) (g : nat -> mpreal) (n : nat) :
  (forall k, (k < n)%nat -> P k = Q k || R k) ->
  (forall k, (k < n)%nat -> Q k && R k = false) ->
  prod_where P g n = (prod_where Q g n * prod_where R g n)%Qc.
Proof.
  intros H1 H2. unfold prod_where. apply prod_filter_split.
  - intros k Hk. apply in_seq in Hk. apply H1. lia.
  - intros k Hk. apply in_seq in Hk. apply H2. lia.
Qed.

Lemma prod_where_ext (P Q : nat -> bool) (g : nat -> mpreal) (n : nat) :
  (forall k, (k < n)%nat -> P k = Q k) -> prod_where P g n = prod_where Q g n.
Proof.
  intros H. unfold prod_where. f_equal. f_equal. apply filter_ext_in.
  intros k Hk. apply in_seq in Hk. apply H. lia.
Qed.

(* ------------------------------------------------------------------ *)
(** ** Which indices the strided loops visit *)

Lemma on_stride_step (step k k' : nat) :
  (1 <= step)%nat ->
  on_stride step k k' = Nat.eqb k k' || on_stride step (k + step) k'.
Proof.
  intros Hstep. unfold on_stride.
  destruct (Nat.eqb_spec k k') as [<-|Hne]; simpl.
  - rewrite Nat.leb_refl, Nat.sub_diag, Nat.Div0.mod_0_l. reflexivity.
  - destruct (Nat.leb_spec k k') as [Hle|Hgt]; simpl.
    + destruct (Nat.leb_spec (k + step) k') as [Hle'|Hgt']; simpl.
      * replace (k' - k)%nat with ((k' - (k + step)) + 1 * step)%nat by lia.
        rewrite Nat.Div0.mod_add. reflexivity.
      * destruct (Nat.eqb_spec ((k' - k) mod step) 0) as [E|E]; [|reflexivity].
        rewrite Nat.mod_small in E by lia. lia.
    + destruct (Nat.leb_spec (k + step) k'); [lia|reflexivity].
Qed.

Lemma on_stride_disjoint (step k k' : nat) :
  (1 <= step)%nat -> Nat.eqb k k' && on_stride step (k + step) k' = false.
Proof.
  intros Hstep. unfold on_stride.
  destruct (Nat.eqb_spec k k') as [<-|Hne]; simpl; [|reflexivity].
  destruct (Nat.leb_spec (k + step) k); [lia|reflexivity].
Qed.

Lemma on_stride_group (step j k' : nat) :
  (j < step)%nat -> on_stride step j k' = Nat.eqb (k' mod step) j.
Proof.
  intros Hj. unfold on_stride.
  destruct (Nat.leb_spec j k') as [Hle|Hgt]; simpl.
  - destruct (Nat.eqb_spec ((k' - j) mod step) 0) as [E|E];
      destruct (Nat.eqb_spec (k' mod step) j) as [F|F]; try reflexivity;
      exfalso.
    + apply F. apply Nat.Div0.div_exact in E.
      replace k' with (j + ((k' - j) / step) * step)%nat at 1 by lia.
      rewrite Nat.Div0.mod_add. apply Nat.mod_small, Hj.
    + apply E.
      pose proof (Nat.div_mod_eq k' step) as D. rewrite F in D.
      replace (k' - j)%nat with (0 + (k' / step) * step)%nat by lia.
      rewrite Nat.Div0.mod_add. apply Nat.Div0.mod_0_l.
  - destruct (Nat.eqb_spec (k' mod step) j) as [F|F]; [|reflexivity].
    exfalso. pose proof (Nat.Div0.mod_le k' step). lia.
Qed.

Lemma from_group_step (step j k' : nat) :
  from_group step j k' = Nat.eqb (k' mod step) j || from_group step (S j) k'.
Proof.
  unfold from_group.
  destruct (Nat.eqb_spec (k' mod step) j), (Nat.leb_spec j (k' mod step)),
    (Nat.leb_spec (S j) (k' mod step)); simpl; try reflexivity; lia.
Qed.

Lemma from_group_disjoint (step j k' : nat) :
  Nat.eqb (k' mod step) j && from_group step (S j) k' = false.
Proof.
  unfold from_group.
  destruct (Nat.eqb_spec (k' mod step) j), (Nat.leb_spec (S j) (k' mod step));
    simpl; try reflexivity; lia.
Qed.

(* ------------------------------------------------------------------ *)
(** ** barycentricWeights: the grouped product is the straight product *)

Section GroupedProduct.
Variables (x : list mpreal) (i : nat) (xi : mpreal).
Variable step : nat.
Hypothesis step_pos : (1 <= step)%nat.

(** The innermost loop started at [k] multiplies in the factors of
    [k], [k + step], ... below [x.size()], each once. *)
Lemma stride_loop_prod (fuel k : nat) (denom : mpreal) :
  ((length x) <= fuel + k)%nat ->
  stride_loop fuel x i step k xi denom =
  (denom * prod_where (on_stride step k) (factor x i xi) (length x))%Qc.
Proof.
  revert k denom. induction fuel as [|fuel IH]; intros k denom Hfuel; simpl.
  - rewrite prod_where_none; [unfold Num.one; ring|].
    intros k' Hk'. unfold on_stride.
    destruct (Nat.leb_spec k k'); [lia|reflexivity].
  - destruct (Vec.get x k) as [xk|] eqn:E.
    + apply Vec_get_some_at in E. destruct E as [Hxk Hk].
      rewrite IH by lia.
      rewrite (@prod_where_split (on_stride step k) (Nat.eqb k)
                 (on_stride step (k + step)) (factor x i xi) (length x)).
      * rewrite (prod_where_single (factor x i xi) Hk). unfold factor.
        rewrite Hxk. destruct (Nat.eqb k i); unfold Num.one; ring.
      * intros. apply on_stride_step, step_pos.
      * intros. apply on_stride_disjoint, step_pos.
    + apply nth_error_None in E.
      rewrite prod_where_none; [unfold Num.one; ring|].
      intros k' Hk'. unfold on_stride.
      destruct (Nat.leb_spec k k'); [lia|reflexivity].
Qed.

(** [x.size()] turns of fuel are enough: more fuel changes nothing. *)
Lemma stride_loop_fuel (fuel k : nat) (denom : mpreal) :
  ((length x) <= fuel)%nat ->
  stride_loop fuel x i step k xi denom = stride_loop (length x) x i step k xi denom.
Proof.
  intros Hfuel. rewrite !stride_loop_prod by lia. reflexivity.
Qed.

(** The loop over the groups [j], ..., [step - 1]. *)
Lemma group_loop_prod (cnt j : nat) (denom : mpreal) :
  (j + cnt = step)%nat ->
  group_loop cnt x i step j xi denom =
  (denom * prod_where (from_group step j) (factor x i xi) (length x))%Qc.
Proof.
  revert j denom. induction cnt as [|cnt IH]; intros j denom Hj; simpl.
  - rewrite prod_where_none; [unfold Num.one; ring|].
    intros k' _. unfold from_group.
    pose proof (Nat.mod_upper_bound k' step).
    destruct (Nat.leb_spec j (k' mod step)); [lia|reflexivity].
  - rewrite IH by lia. rewrite stride_loop_prod by lia.
    rewrite (@prod_where_split (from_group step j)
               (fun k' => Nat.eqb (k' mod step) j)
               (from_group step (S j)) (factor x i xi) (length x)).
    + rewrite (@prod_where_ext (on_stride step j)
                 (fun k' => Nat.eqb (k' mod step) j)).
      * ring.
      * intros. apply on_stride_group. lia.
    + intros. apply from_group_step.
    + intros. apply from_group_disjoint.
Qed.

(** All groups together: every index below [x.size()] exactly once. *)
Lemma group_loop_all (denom : mpreal) :
  group_loop step x i step 0 xi denom =
  (denom * Num.prod (map (factor x i xi) (seq 0 (length x))))%Qc.
Proof.
  rewrite group_loop_prod by lia. unfold prod_where.
  rewrite filter_all; [reflexivity|]. intros. reflexivity.
Qed.

End GroupedProduct.

Lemma prod_factor_others (x : list mpreal) (i : nat) (l : list nat) :
  Num.prod (map (factor x i (at_ x i)) l) =
  Num.prod (map (fun k => Num.two * (at_ x i - at_ x k))%Qc
              (filter (fun k => negb (Nat.eqb k i)) l)).
Proof.
  unfold Num.prod. induction l as [|k l IH]; simpl; [reflexivity|].
  unfold factor at 1. destruct (Nat.eqb k i); simpl.
  - rewrite IH. unfold Num.one. ring.
  - rewrite IH, Num_shl_1. reflexivity.
Qed.

(** The denominator that [barycentricWeights] accumulates for index [i]
    is [Π_{k≠i} 2·(x_i − x_k)]. *)
Lemma group_loop_weight_denom (x : list mpreal) (i step : nat) :
  (1 <= step)%nat ->
  group_loop step x i step 0 (at_ x i) Num.one = weight_denom x i.
Proof.
  intros Hstep. rewrite group_loop_all by exact Hstep.
  rewrite prod_factor_others. unfold weight_denom, others, Num.one. ring.
Qed.

Lemma weights_loop_spec (x : list mpreal) (step : nat) :
  (1 <= step)%nat ->
  forall (cnt i : nat) (w : list mpreal),
  (i + cnt = length x)%nat -> (length x <= length w)%nat ->
  exists w',
    weights_loop cnt x step i w = Some w' /\
    length w' = length w /\
    (forall k, (i <= k < length x)%nat ->
               Vec.get w' k = Some (weight_formula x k)) /\
    (forall k, (k < i \/ length x <= k)%nat -> Vec.get w' k = Vec.get w k).
Proof.
  intros Hstep. induction cnt as [|cnt IH]; intros i w Hi Hw; simpl.
  - exists w. repeat split; intros; try reflexivity; lia.
  - rewrite (@Vec_get_at x i) by lia.
    rewrite group_loop_weight_denom by exact Hstep.
    destruct (@Vec_set_some _ w i (Num.one / weight_denom x i)%Qc)
      as [w1 Hw1]; [lia|].
    rewrite Hw1. pose proof (Vec_set_length _ _ _ Hw1) as Hlen.
    destruct (IH (S i) w1) as (w' & Hrun & Hlen' & Hnew & Hold);
      [lia|lia|].
    exists w'. split; [exact Hrun|]. split; [congruence|]. split.
    + intros k Hk. destruct (Nat.eq_dec k i) as [->|Hne].
      * rewrite Hold by lia. apply (Vec_get_set_same _ _ _ Hw1).
      * apply Hnew. lia.
    + intros k Hk. rewrite Hold by lia.
      apply (Vec_get_set_other _ _ Hw1). lia.
Qed.

(** On a weight vector at least as long as the node set, the call is
    defined, restores the ambient precision and fills in the formula. *)
Lemma barycentricWeights_spec (w x : list mpreal) (prec s : mp_prec_t) :
  (length x <= length w)%nat ->
  exists w',
    barycentricWeights w x prec s = Some (w', s) /\
    length w' = length w /\
    (forall k, (k < length x)%nat -> at_ w' k = weight_formula x k) /\
    (forall k, (length x <= k)%nat -> Vec.get w' k = Vec.get w k).
Proof.
  intros Hw. rewrite barycentricWeights_run.
  destruct (@weights_loop_spec x (stride (length x)) (stride_pos _)
              (length x) 0%nat w) as (w' & Hrun & Hlen & Hnew & Hold);
    [lia|exact Hw|].
  rewrite Hrun. exists w'. repeat split; try assumption.
  - intros k Hk. apply Vec_get_some_at. apply Hnew. lia.
  - intros k Hk. apply Hold. lia.
Qed.

(* ------------------------------------------------------------------ *)
(** ** No weight is zero *)

Lemma prod_nonzero (l : list mpreal) :
  Forall (fun a => a <> Num.zero) l -> Num.prod l <> Num.zero.
Proof.
  unfold Num.prod. induction 1 as [|a l Ha _ IH]; simpl.
  - exact Q_apart_0_1.
  - intros H. apply Qcmult_integral in H. destruct H; contradiction.
Qed.

Lemma inv_nonzero (a : mpreal) : a <> Num.zero -> (Num.one / a)%Qc <> Num.zero.
Proof.
  intros Ha H. apply Q_apart_0_1.
  rewrite <- (Qcmult_inv_r a Ha). unfold Qcdiv in H.
  rewrite Qcmult_1_l in H. unfold Num.zero in H. rewrite H. ring.
Qed.

Lemma weight_denom_nonzero (x : list mpreal) (i : nat) :
  NoDup x -> (i < length x)%nat -> weight_denom x i <> Num.zero.
Proof.
  intros Hnd Hi. unfold weight_denom. apply prod_nonzero.
  apply Forall_map, Forall_forall. intros k Hk.
  unfold others in Hk. apply filter_In in Hk. destruct Hk as [Hk Hne].
  apply in_seq in Hk. apply negb_true_iff, Nat.eqb_neq in Hne.
  intros H. apply Qcmult_integral in H. destruct H as [H|H].
  - exact (Num_two_neq_0 H).
  - apply Hne. symmetry.
    apply (proj1 (NoDup_nth x Num.zero) Hnd); [exact Hi|lia|].
    fold (at_ x i) (at_ x k).
    transitivity ((at_ x i - at_ x k) + at_ x k)%Qc; [ring|].
    unfold Num.zero in H. rewrite H. ring.
Qed.

(** C3: for pairwise distinct nodes, [n >= 2], [barycentricWeights] writes
    [w_i = 1 / Π_{k≠i} 2·(x_i − x_k)] at every index [i < n] (the grouped
    accumulation multiplies in every [k ≠ i] exactly once, so it is the
    straight product), and no weight is zero. *)
Theorem barycentricWeights_formula (w x : list mpreal) (prec s : mp_prec_t) :
  (2 <= length x)%nat -> NoDup x -> (length x <= length w)%nat ->
  exists w',
    barycentricWeights w x prec s = Some (w', s) /\
    length w' = length w /\
    forall i, (i < length x)%nat ->
      at_ w' i =
        (Num.one /
         Num.prod (map (fun k => Num.two * (at_ x i - at_ x k))%Qc
                     (others (length x) i)))%Qc /\
      at_ w' i <> Num.zero.
Proof.
  intros _ Hnd Hw.
  destruct (@barycentricWeights_spec w x prec s Hw)
    as (w' & Hrun & Hlen & Hnew & _).
  exists w'. split; [exact Hrun|]. split; [exact Hlen|].
  intros i Hi. rewrite (Hnew i Hi). split; [reflexivity|].
  apply inv_nonzero, weight_denom_nonzero; assumption.
Qed.

Ltac qc_neq :=
  let H := fresh in
  intros H; apply (f_equal this) in H; vm_compute in H; discriminate H.

Ltac distinct_nodes :=
  repeat (apply NoDup_cons;
          [simpl; repeat (let H := fresh in intros [H|H]; [revert H; qc_neq|revert H]);
           intros []|]);
  apply NoDup_nil.

Lemma sample_nodes_distinct : NoDup Sample.nodes.
Proof. unfold Sample.nodes. distinct_nodes. Qed.

Lemma barycentricWeights_formula_witness :
  (2 <= length Sample.nodes)%nat /\ NoDup Sample.nodes /\
  (length Sample.nodes <= length (Vec.make 3))%nat /\
  exists w',
    barycentricWeights (Vec.make 3) Sample.nodes default_prec 53%Z
      = Some (w', 53%Z) /\
    length w' = length (Vec.make 3) /\
    forall i, (i < length Sample.nodes)%nat ->
      at_ w' i =
        (Num.one /
         Num.prod (map (fun k => Num.two *
                                 (at_ Sample.nodes i - at_ Sample.nodes k))%Qc
                     (others (length Sample.nodes) i)))%Qc /\
      at_ w' i <> Num.zero.
Proof.
  split; [simpl; lia|]. split; [exact sample_nodes_distinct|].
  split; [simpl; lia|].
  apply (@barycentricWeights_formula (Vec.make 3) Sample.nodes default_prec 53%Z).
  - simpl; lia.
  - exact sample_nodes_distinct.
  - simpl; lia.
Defined.

(* ------------------------------------------------------------------ *)
(** ** Scaling the nodes *)

Lemma others_length (i a n : nat) :
  length (filter (fun k => negb (Nat.eqb k i)) (seq a n)) =
  if Nat.leb a i && Nat.ltb i (a + n) then (n - 1)%nat else n.
Proof.
  revert a. induction n as [|n IH]; intros a; simpl.
  - destruct (Nat.leb a i && Nat.ltb i (a + 0)); reflexivity.
  - destruct (Nat.eqb_spec a i) as [->|Hne]; simpl; rewrite IH.
    + destruct (Nat.leb_spec (S i) i); [lia|]. simpl.
      destruct (Nat.leb_spec i i), (Nat.ltb_spec i (i + S n)); simpl; lia.
    + destruct (Nat.leb_spec (S a) i), (Nat.ltb_spec i (S a + n)),
        (Nat.leb_spec a i), (Nat.ltb_spec i (a + S n)); simpl; lia.
Qed.

Lemma at_scaled (c : mpreal) (x : list mpreal) (k : nat) :
  at_ (map (Qcmult c) x) k = (c * at_ x k)%Qc.
Proof.
  unfold at_.
  replace Num.zero with (c * Num.zero)%Qc at 1 by (unfold Num.zero; ring).
  apply map_nth.
Qed.

Lemma prod_scaled (c : mpreal) (x : list mpreal) (i : nat) (l : list nat) :
  Num.prod (map (fun k => Num.two * (c * at_ x i - c * at_ x k))%Qc l) =
  (c ^ length l *
   Num.prod (map (fun k => Num.two * (at_ x i - at_ x k))%Qc l))%Qc.
Proof.
  unfold Num.prod. induction l as [|k l IH]; simpl; [ring|].
  rewrite IH. ring.
Qed.

Lemma weight_formula_scaled (c : mpreal) (x : list mpreal) (i : nat) :
  (i < length x)%nat ->
  weight_formula (map (Qcmult c) x) i =
  (weight_formula x i / c ^ (length x - 1))%Qc.
Proof.
  intros Hi. unfold weight_formula, weight_denom.
  rewrite length_map.
  rewrite (map_ext (fun k => Num.two *
                     (at_ (map (Qcmult c) x) i - at_ (map (Qcmult c) x) k))%Qc
                   (fun k => Num.two * (c * at_ x i - c * at_ x k))%Qc)
    by (intros k; rewrite !at_scaled; reflexivity).
  rewrite prod_scaled. unfold others at 1. rewrite others_length.
  destruct (Nat.leb_spec 0 i), (Nat.ltb_spec i (0 + length x)); try lia.
  simpl. unfold Qcdiv. rewrite Qcinv_mult_distr. ring.
Qed.

(** C8: for pairwise distinct nodes, [n >= 2] and [c <> 0], every weight of
    the node set scaled by [c] is the weight of the node set itself divided
    by [c^(n-1)]. *)
Theorem barycentricWeights_scaling
  (c : mpreal) (x w wc : list mpreal) (prec s : mp_prec_t) :
  (2 <= length x)%nat -> NoDup x -> c <> Num.zero ->
  (length x <= length w)%nat -> (length x <= length wc)%nat ->
  exists w' wc',
    barycentricWeights w x prec s = Some (w', s) /\
    barycentricWeights wc (map (Qcmult c) x) prec s = Some (wc', s) /\
    forall i, (i < length x)%nat ->
      at_ wc' i = (at_ w' i / c ^ (length x - 1))%Qc.
Proof.
  intros _ _ _ Hw Hwc.
  destruct (@barycentricWeights_spec w x prec s Hw)
    as (w' & Hrun & _ & Hnew & _).
  destruct (@barycentricWeights_spec wc (map (Qcmult c) x) prec s)
    as (wc' & Hrunc & _ & Hnewc & _); [rewrite length_map; exact Hwc|].
  exists w', wc'. split; [exact Hrun|]. split; [exact Hrunc|].
  intros i Hi. rewrite Hnewc by (rewrite length_map; exact Hi).
  rewrite (Hnew i Hi). apply weight_formula_scaled, Hi.
Qed.

Lemma barycentricWeights_scaling_witness :
  (2 <= length Sample.nodes)%nat /\ NoDup Sample.nodes /\
  Num.two <> Num.zero /\
  (length Sample.nodes <= length (Vec.make 3))%nat /\
  exists w' wc',
    barycentricWeights (Vec.make 3) Sample.nodes default_prec 53%Z
      = Some (w', 53%Z) /\
    barycentricWeights (Vec.make 3) (map (Qcmult Num.two) Sample.nodes)
      default_prec 53%Z = Some (wc', 53%Z) /\
    forall i, (i < length Sample.nodes)%nat ->
      at_ wc' i = (at_ w' i / Num.two ^ (length Sample.nodes - 1))%Qc.
Proof.
  split; [simpl; lia|]. split; [exact sample_nodes_distinct|].
  split; [exact Num_two_neq_0|]. split; [simpl; lia|].
  apply (@barycentricWeights_scaling Num.two Sample.nodes
           (Vec.make 3) (Vec.make 3) default_prec 53%Z).
  - simpl; lia.
  - exact sample_nodes_distinct.
  - exact Num_two_neq_0.
  - simpl; lia.
  - simpl; lia.
Defined.

(* ------------------------------------------------------------------ *)
(** ** computeDelta *)

Lemma parity_test (i : nat) : Nat.eqb (i mod 2) 0 = Nat.even i.
Proof.
  rewrite <- Nat.bit0_mod, Nat.bit0_odd, <- Nat.negb_even.
  destruct (Nat.even i); reflexivity.
Qed.

Lemma covered_by_band (it : Band) (bands : list Band) (xVal : mpreal) :
  In it bands -> in_band it xVal = true -> covered bands xVal.
Proof.
  intros Hin Hit. apply in_band_true in Hit. exists it. tauto.
Qed.

Lemma covered_at (bands : list Band) (x : list mpreal) (k : nat) :
  Forall (covered bands) x -> (k < length x)%nat -> covered bands (at_ x k).
Proof.
  intros Hx Hk. rewrite Forall_forall in Hx. apply Hx. apply nth_In, Hk.
Qed.

Section DeltaLoop.
Variables (w x : list mpreal) (bands : list Band).
Hypothesis aligned : (length w <= length x)%nat.
Hypothesis nodes_covered : Forall (covered bands) x.

(** From index [i] on, the loop adds [w_k * D_k] to [num] and
    [sign_k * (w_k / W_k)] to [denom] for every [k] that is left; the
    values [D] and [W] carried over from the turn before are overwritten by
    every lookup. *)
Lemma delta_loop_sums (cnt i : nat) (num denom D W : mpreal) :
  (i + cnt = length w)%nat ->
  delta_loop cnt i w x bands num denom D W =
  Some ((num + Num.sum (map (fun k => at_ w k * ideal_D bands (at_ x k))
                          (seq i cnt)))%Qc,
        (denom + Num.sum (map (fun k => sign k *
                                        (at_ w k / ideal_W bands (at_ x k)))
                            (seq i cnt)))%Qc).
Proof.
  revert i num denom D W.
  induction cnt as [|cnt IH]; intros i num denom D W Hi;
    cbn [delta_loop seq map].
  - unfold Num.sum, Num.zero. simpl. f_equal. f_equal; ring.
  - rewrite (@Vec_get_at x i), (@Vec_get_at w i) by lia.
    rewrite lookup_covered by (apply covered_at; [assumption|lia]).
    rewrite IH by lia. rewrite parity_test. unfold sign, Num.fma, Num.sum.
    cbn [fold_right]. f_equal.
    destruct (Nat.even i); f_equal; unfold Num.one; ring.
Qed.

End DeltaLoop.

(** On a fresh vector of the length of the node set, [barycentricWeights]
    returns the vector of the closed formula. *)
Lemma barycentricWeights_fresh (x : list mpreal) (prec s : mp_prec_t) :
  barycentricWeights (Vec.make (length x)) x prec s =
  Some (weights_formula x, s).
Proof.
  destruct (@barycentricWeights_spec (Vec.make (length x)) x prec s)
    as (w' & Hrun & Hlen & Hnew & _); [rewrite Vec_make_length; lia|].
  rewrite Hrun. f_equal. f_equal.
  rewrite Vec_make_length in Hlen.
  apply (nth_ext _ _ Num.zero Num.zero).
  - unfold weights_formula. rewrite length_map, length_seq. exact Hlen.
  - intros k Hk. rewrite Hlen in Hk. specialize (Hnew k Hk).
    unfold at_ in Hnew. rewrite Hnew. unfold weights_formula.
    rewrite (nth_indep _ Num.zero (weight_formula x 0%nat))
      by (rewrite length_map, length_seq; exact Hk).
    rewrite map_nth, seq_nth by exact Hk. reflexivity.
Qed.

Lemma weights_formula_length (x : list mpreal) :
  length (weights_formula x) = length x.
Proof. unfold weights_formula. rewrite length_map, length_seq. reflexivity. Qed.

Lemma computeDelta_w_spec (w x : list mpreal) bands (prec s : mp_prec_t) :
  length w = length x -> Forall (covered bands) x ->
  computeDelta_w w x bands prec s = Some (delta_formula w x bands, s).
Proof.
  intros Hw Hx. rewrite computeDelta_w_run.
  rewrite delta_loop_sums by (try assumption; lia).
  unfold delta_formula, delta_num, delta_denom. simpl. rewrite Hw.
  unfold Num.zero. rewrite !Qcplus_0_l. reflexivity.
Qed.

Lemma computeDelta_spec (x : list mpreal) bands (prec s : mp_prec_t) :
  Forall (covered bands) x ->
  computeDelta x bands prec s =
  Some (delta_formula (weights_formula x) x bands, s).
Proof.
  intros Hx.
  pose proof (@barycentricWeights_fresh x default_prec prec) as Hw.
  rewrite barycentricWeights_run in Hw.
  rewrite computeDelta_run.
  destruct weights_loop as [w|]; [|discriminate Hw].
  injection Hw as ->.
  pose proof (@computeDelta_w_spec (weights_formula x) x bands prec s
                (weights_formula_length x) Hx) as Hd.
  rewrite computeDelta_w_run in Hd. exact Hd.
Qed.

(** C1: for a node set of length [n >= 2] whose nodes all lie inside a
    band, both overloads of [computeDelta] return [num / denom] with
    [num = Σ_i w_i * D_i] and [denom = Σ_i sign_i * (w_i / W_i)],
    [sign_i = -1] for even [i] and [+1] for odd [i]: the overload that
    takes only the nodes with [w] the weights [barycentricWeights] computes
    for [x], the other one with the index-aligned weights it is given. *)
Theorem computeDelta_formula (x : list mpreal) (bands : list Band) :
  (2 <= length x)%nat -> Forall (covered bands) x ->
  (forall prec s,
      barycentricWeights (Vec.make (length x)) x default_prec prec
        = Some (weights_formula x, prec) /\
      computeDelta x bands prec s =
        Some ((Num.sum (map (fun i => at_ (weights_formula x) i *
                                      ideal_D bands (at_ x i))
                          (seq 0 (length x))) /
               Num.sum (map (fun i => sign i *
                                      (at_ (weights_formula x) i /
                                       ideal_W bands (at_ x i)))
                          (seq 0 (length x))))%Qc, s)) /\
  (forall w prec s, length w = length x ->
      computeDelta_w w x bands prec s =
        Some ((Num.sum (map (fun i => at_ w i * ideal_D bands (at_ x i))
                          (seq 0 (length x))) /
               Num.sum (map (fun i => sign i *
                                      (at_ w i / ideal_W bands (at_ x i)))
                          (seq 0 (length x))))%Qc, s)).
Proof.
  intros _ Hx. split.
  - intros prec s. split.
    + apply barycentricWeights_fresh.
    + apply computeDelta_spec, Hx.
  - intros w prec s Hw. apply computeDelta_w_spec; assumption.
Qed.

Lemma sample_nodes_covered : Forall (covered Sample.bands) Sample.nodes.
Proof.
  unfold Sample.nodes, Sample.bands.
  apply Forall_cons;
    [apply (@covered_by_band Sample.passband); [simpl; auto|reflexivity]|].
  apply Forall_cons;
    [apply (@covered_by_band Sample.passband); [simpl; auto|reflexivity]|].
  apply Forall_cons;
    [apply (@covered_by_band Sample.stopband); [simpl; auto|reflexivity]|].
  apply Forall_nil.
Qed.

Lemma computeDelta_formula_witness :
  (2 <= length Sample.nodes)%nat /\
  Forall (covered Sample.bands) Sample.nodes /\
  computeDelta Sample.nodes Sample.bands default_prec 53%Z =
    Some ((Num.sum (map (fun i => at_ (weights_formula Sample.nodes) i *
                                  ideal_D Sample.bands (at_ Sample.nodes i))
                      (seq 0 (length Sample.nodes))) /
           Num.sum (map (fun i => sign i *
                                  (at_ (weights_formula Sample.nodes) i /
                                   ideal_W Sample.bands (at_ Sample.nodes i)))
                      (seq 0 (length Sample.nodes))))%Qc, 53%Z).
Proof.
  assert (Hn : (2 <= length Sample.nodes)%nat) by (simpl; lia).
  split; [exact Hn|]. split; [exact sample_nodes_covered|].
  exact (proj2 (proj1 (@computeDelta_formula Sample.nodes Sample.bands
                         Hn sample_nodes_covered) default_prec 53%Z)).
Defined.

(* ------------------------------------------------------------------ *)
(** ** computeC *)

Lemma parity_test_odd (i : nat) : negb (Nat.eqb (i mod 2) 0) = Nat.odd i.
Proof. rewrite parity_test. apply Nat.negb_even. Qed.

Section CLoop.
Variables (delta : mpreal) (omega : list mpreal) (bands : list Band).
Hypothesis nodes_covered : Forall (covered bands) omega.

Lemma C_loop_spec (cnt i : nat) (C : list mpreal) (D W : mpreal) :
  (i + cnt = length omega)%nat -> (length omega <= length C)%nat ->
  exists C',
    C_loop cnt i C delta omega bands D W = Some C' /\
    length C' = length C /\
    (forall k, (i <= k < length omega)%nat ->
       Vec.get C' k =
       Some (ideal_D bands (at_ omega k) + delta / flipped_W bands omega k)%Qc) /\
    (forall k, (k < i \/ length omega <= k)%nat -> Vec.get C' k = Vec.get C k).
Proof.
  revert i C D W.
  induction cnt as [|cnt IH]; intros i C D W Hi HC; cbn [C_loop].
  - exists C. repeat split; intros; try reflexivity; lia.
  - rewrite (@Vec_get_at omega i) by lia.
    rewrite lookup_covered by (apply covered_at; [assumption|lia]).
    rewrite parity_test_odd. fold (flipped_W bands omega i).
    destruct (@Vec_set_some _ C i
                (ideal_D bands (at_ omega i) + delta / flipped_W bands omega i)%Qc)
      as [C1 HC1]; [lia|].
    rewrite HC1. pose proof (Vec_set_length _ _ _ HC1) as Hlen.
    destruct (IH (S i) C1 (ideal_D bands (at_ omega i)) (flipped_W bands omega i))
      as (C' & Hrun & Hlen' & Hnew & Hold); [lia|lia|].
    exists C'. split; [exact Hrun|]. split; [congruence|]. split.
    + intros k Hk. destruct (Nat.eq_dec k i) as [->|Hne].
      * rewrite Hold by lia. apply (Vec_get_set_same _ _ _ HC1).
      * apply Hnew. lia.
    + intros k Hk. rewrite Hold by lia.
      apply (Vec_get_set_other _ _ HC1). lia.
Qed.

End CLoop.

(** On a response vector at least as long as the node set the call is
    defined and restores the ambient precision. *)
Lemma computeC_spec
  (C : list mpreal) (delta : mpreal) (omega : list mpreal)
  (bands : list Band) (prec s : mp_prec_t) :
  Forall (covered bands) omega -> (length omega <= length C)%nat ->
  exists C',
    computeC C delta omega bands prec s = Some (C', s) /\
    length C' = length C /\
    forall i, (i < length omega)%nat ->
      at_ C' i =
      (ideal_D bands (at_ omega i) + delta / flipped_W bands omega i)%Qc.
Proof.
  intros Hcov HC. rewrite computeC_run.
  destruct (@C_loop_spec delta omega bands Hcov (length omega) 0%nat C
              Num.zero Num.zero) as (C' & Hrun & Hlen & Hnew & _);
    [lia|exact HC|].
  rewrite Hrun. exists C'. split; [reflexivity|]. split; [exact Hlen|].
  intros i Hi. apply Vec_get_some_at. apply Hnew. lia.
Qed.

(** C6: for a band model that covers all nodes, [computeC] writes
    [C_i = D_i + delta / W_i'] at every index [i] of the node set, where
    [W_i'] is [W_i] with its sign flipped exactly when [i] is odd; the
    response vector has to be at least as long as the node set. *)
Theorem computeC_formula
  (C : list mpreal) (delta : mpreal) (omega : list mpreal)
  (bands : list Band) (prec s : mp_prec_t) :
  Forall (covered bands) omega -> (length omega <= length C)%nat ->
  exists C',
    computeC C delta omega bands prec s = Some (C', s) /\
    length C' = length C /\
    forall i, (i < length omega)%nat ->
      at_ C' i =
      (ideal_D bands (at_ omega i) +
       delta / (if Nat.odd i then - ideal_W bands (at_ omega i)
                else ideal_W bands (at_ omega i)))%Qc.
Proof.
  intros Hcov HC.
  destruct (@computeC_spec C delta omega bands prec s Hcov HC)
    as (C' & Hrun & Hlen & Hnew).
  exists C'. split; [exact Hrun|]. split; [exact Hlen|].
  intros i Hi. rewrite (Hnew i Hi).
  unfold flipped_W. destruct (Nat.odd i); reflexivity.
Qed.

Lemma computeC_formula_witness :
  Forall (covered Sample.bands) Sample.nodes /\
  (length Sample.nodes <= length (Vec.make 3))%nat /\
  exists C',
    computeC (Vec.make 3) (Sample.q 1 2) Sample.nodes Sample.bands
      default_prec 53%Z = Some (C', 53%Z) /\
    length C' = length (Vec.make 3) /\
    forall i, (i < length Sample.nodes)%nat ->
      at_ C' i =
      (ideal_D Sample.bands (at_ Sample.nodes i) +
       Sample.q 1 2 /
       (if Nat.odd i then - ideal_W Sample.bands (at_ Sample.nodes i)
        else ideal_W Sample.bands (at_ Sample.nodes i)))%Qc.
Proof.
  split; [exact sample_nodes_covered|]. split; [simpl; lia|].
  apply (@computeC_formula (Vec.make 3) (Sample.q 1 2) Sample.nodes
           Sample.bands default_prec 53%Z).
  - exact sample_nodes_covered.
  - simpl; lia.
Defined.

(* ------------------------------------------------------------------ *)
(** ** computeApprox *)

Lemma distinct_at (x : list mpreal) (i k : nat) :
  NoDup x -> (i < length x)%nat -> (k < length x)%nat -> k <> i ->
  at_ x k <> at_ x i.
Proof.
  intros Hnd Hi Hk Hne H. apply Hne.
  apply (proj1 (NoDup_nth x Num.zero) Hnd); assumption.
Qed.

Section ApproxLoop.
Variables (q : mpreal) (x C w : list mpreal).
Hypothesis C_aligned : (length x <= length C)%nat.
Hypothesis w_aligned : (length x <= length w)%nat.

(** No node from [i] on equals the query: the loop runs to the end and
    has added the terms of the two sums. *)
Lemma approx_loop_sums (cnt i : nat) (num denom : mpreal) :
  (i + cnt = length x)%nat ->
  (forall k, (i <= k < length x)%nat -> at_ x k <> q) ->
  approx_loop cnt i q x C w num denom =
  Some (FellThrough
          (num + Num.sum (map (fun k => (at_ w k / (q - at_ x k)) * at_ C k)
                            (seq i cnt)))%Qc
          (denom + Num.sum (map (fun k => at_ w k / (q - at_ x k))
                              (seq i cnt)))%Qc).
Proof.
  revert i num denom.
  induction cnt as [|cnt IH]; intros i num denom Hi Hne;
    cbn [approx_loop seq map].
  - unfold Num.sum, Num.zero. simpl. f_equal. f_equal; ring.
  - rewrite (@Vec_get_at x i), (@Vec_get_at w i), (@Vec_get_at C i) by lia.
    rewrite Num_eqb_neq by (intros E; apply (Hne i); [lia|congruence]).
    rewrite IH by (try lia; intros; apply Hne; lia).
    unfold Num.fma, Num.sum. cbn [fold_right]. f_equal. f_equal; ring.
Qed.

(** The first node equal to the query, at index [m]: the loop leaves
    through the exact-match return with [C_m]. *)
Lemma approx_loop_match (m cnt i : nat) (num denom : mpreal) :
  (i + cnt = length x)%nat -> (i <= m < length x)%nat ->
  at_ x m = q ->
  (forall k, (i <= k < m)%nat -> at_ x k <> q) ->
  approx_loop cnt i q x C w num denom = Some (ExactMatch (at_ C m)).
Proof.
  revert i num denom.
  induction cnt as [|cnt IH]; intros i num denom Hi Hm Hq Hne;
    cbn [approx_loop]; [lia|].
  rewrite (@Vec_get_at x i), (@Vec_get_at w i), (@Vec_get_at C i) by lia.
  destruct (Nat.eq_dec i m) as [->|Him].
  - rewrite Hq, Num_eqb_refl. reflexivity.
  - rewrite Num_eqb_neq by (intros E; apply (Hne i); [lia|congruence]).
    apply IH; try lia; try assumption. intros; apply Hne; lia.
Qed.

End ApproxLoop.

(** C5: for pairwise distinct nodes and index-aligned [C] and [w],
    [computeApprox] at a query equal to the node [x_i] returns [C_i]
    itself (the exact-match branch), and at a query equal to no node
    returns [num / denom] with [num = Σ_i (w_i / (q − x_i)) * C_i] and
    [denom = Σ_i w_i / (q − x_i)]. *)
Theorem computeApprox_formula (x C w : list mpreal) (prec s : mp_prec_t) :
  NoDup x -> length C = length x -> length w = length x ->
  (forall i, (i < length x)%nat ->
     computeApprox (at_ x i) x C w prec s = Some (at_ C i, s)) /\
  (forall q, ~ In q x ->
     computeApprox q x C w prec s =
     Some ((Num.sum (map (fun i => (at_ w i / (q - at_ x i)) * at_ C i)
                       (seq 0 (length x))) /
            Num.sum (map (fun i => at_ w i / (q - at_ x i))
                       (seq 0 (length x))))%Qc, s)).
Proof.
  intros Hnd HC Hw. split.
  - intros i Hi. rewrite computeApprox_run.
    rewrite (@approx_loop_match (at_ x i) x C w) with (m := i);
      try lia; try reflexivity.
    intros k Hk. apply distinct_at; try assumption; lia.
  - intros q Hq. rewrite computeApprox_run.
    rewrite approx_loop_sums; try lia.
    + unfold Num.zero. rewrite !Qcplus_0_l. reflexivity.
    + intros k Hk E. apply Hq. rewrite <- E. apply nth_In. lia.
Qed.

Lemma computeApprox_formula_witness :
  NoDup Sample.nodes /\
  length (Vec.make 3) = length Sample.nodes /\
  length (weights_formula Sample.nodes) = length Sample.nodes /\
  (forall i, (i < length Sample.nodes)%nat ->
     computeApprox (at_ Sample.nodes i) Sample.nodes (Vec.make 3)
       (weights_formula Sample.nodes) default_prec 53%Z
     = Some (at_ (Vec.make 3) i, 53%Z)) /\
  (forall q, ~ In q Sample.nodes ->
     computeApprox q Sample.nodes (Vec.make 3) (weights_formula Sample.nodes)
       default_prec 53%Z =
     Some ((Num.sum (map (fun i => (at_ (weights_formula Sample.nodes) i /
                                    (q - at_ Sample.nodes i)) *
                                   at_ (Vec.make 3) i)
                       (seq 0 (length Sample.nodes))) /
            Num.sum (map (fun i => at_ (weights_formula Sample.nodes) i /
                                   (q - at_ Sample.nodes i))
                       (seq 0 (length Sample.nodes))))%Qc, 53%Z)).
Proof.
  split; [exact sample_nodes_distinct|]. split; [reflexivity|].
  split; [reflexivity|].
  apply (@computeApprox_formula Sample.nodes (Vec.make 3)
           (weights_formula Sample.nodes) default_prec 53%Z).
  - exact sample_nodes_distinct.
  - reflexivity.
  - reflexivity.
Defined.

(* ------------------------------------------------------------------ *)
(** ** computeError *)

Lemma error_loop_match (xVal delta : mpreal) (x : list mpreal) (m cnt i : nat) :
  (i + cnt = length x)%nat -> (i <= m < length x)%nat ->
  at_ x m = xVal ->
  (forall k, (i <= k < m)%nat -> at_ x k <> xVal) ->
  error_loop cnt i xVal delta x =
  Some (if Nat.even m then delta else (- delta)%Qc).
Proof.
  revert i.
  induction cnt as [|cnt IH]; intros i Hi Hm Hq Hne; cbn [error_loop]; [lia|].
  rewrite (@Vec_get_at x i) by lia.
  destruct (Nat.eq_dec i m) as [->|Him].
  - rewrite Hq, Num_eqb_refl, parity_test. reflexivity.
  - rewrite Num_eqb_neq by (intros E; apply (Hne i); [lia|congruence]).
    apply IH; try lia; try assumption. intros; apply Hne; lia.
Qed.

(** The exact-match value agrees with the general branch: with the sample
    [C_i = D_i + delta / W_i'] that [computeC] builds, the weighted
    deviation [(C_i − D_i) · W_i] at the node is [+delta] for even [i] and
    [-delta] for odd [i]. *)
Lemma node_error_sign (bands : list Band) (x : list mpreal) (i : nat)
  (delta : mpreal) :
  ideal_W bands (at_ x i) <> Num.zero ->
  ((ideal_D bands (at_ x i) + delta / flipped_W bands x i
    - ideal_D bands (at_ x i)) * ideal_W bands (at_ x i))%Qc =
  if Nat.even i then delta else (- delta)%Qc.
Proof.
  intros HW. unfold flipped_W. rewrite <- Nat.negb_even.
  unfold Num.zero in HW. destruct (Nat.even i); simpl; field;
    try exact HW.
  intros H. apply HW.
  rewrite <- (Qcopp_involutive (ideal_W bands (at_ x i))), H. ring.
Qed.

(** C2, as the code has it: for pairwise distinct nodes, [computeError] at
    a query equal to the node [x_i] returns [+delta] when [i] is even and
    [-delta] when [i] is odd. *)
Theorem computeError_at_node
  (x C w : list mpreal) (delta : mpreal) (bands : list Band)
  (prec s : mp_prec_t) (i : nat) :
  NoDup x -> (i < length x)%nat ->
  computeError (at_ x i) delta x C w bands prec s =
  Some (if Nat.even i then delta else (- delta)%Qc, s).
Proof.
  intros Hnd Hi. rewrite computeError_run.
  rewrite (@error_loop_match (at_ x i) delta x i); try lia; try reflexivity.
  intros k Hk. apply distinct_at; try assumption; lia.
Qed.

Lemma computeError_at_node_witness :
  NoDup Sample.nodes /\ (1 < length Sample.nodes)%nat /\
  computeError (at_ Sample.nodes 1) (Sample.q 1 2) Sample.nodes
    (Vec.make 3) (Vec.make 3) Sample.bands default_prec 53%Z =
  Some (if Nat.even 1 then Sample.q 1 2 else (- Sample.q 1 2)%Qc, 53%Z).
Proof.
  split; [exact sample_nodes_distinct|]. split; [simpl; lia|].
  apply (@computeError_at_node Sample.nodes (Vec.make 3) (Vec.make 3)
           (Sample.q 1 2) Sample.bands default_prec 53%Z 1).
  - exact sample_nodes_distinct.
  - simpl; lia.
Defined.

(** C2 as stated fails: at the node of index 0 (even) of the sample nodes
    and [delta = 1/2] the call returns [+1/2], not [-1/2]. *)
Lemma computeError_at_node_sign_counterexample :
  ~ (forall (x C w : list mpreal) (delta : mpreal) (bands : list Band)
            (prec s : mp_prec_t) (i : nat),
        NoDup x -> (i < length x)%nat ->
        computeError (at_ x i) delta x C w bands prec s =
        Some (if Nat.odd i then delta else (- delta)%Qc, s)).
Proof.
  intros H.
  specialize (H Sample.nodes (Vec.make 3) (Vec.make 3) (Sample.q 1 2)
                Sample.bands default_prec 53%Z 0%nat
                sample_nodes_distinct (Nat.lt_0_succ 2)).
  rewrite computeError_run in H. vm_compute in H.
  injection H as H. discriminate H.
Qed.

(* ------------------------------------------------------------------ *)
(** ** Round trip *)

Lemma flipped_W_nonzero (bands : list Band) (x : list mpreal) (i : nat) :
  ideal_W bands (at_ x i) <> Num.zero -> flipped_W bands x i <> Num.zero.
Proof.
  intros HW. unfold flipped_W. destruct (Nat.odd i); [|exact HW].
  intros H. apply HW. rewrite <- (Qcopp_involutive (ideal_W bands (at_ x i))).
  unfold Num.zero in *. rewrite H. ring.
Qed.

(** Every response sample gives delta back: [(C_i − D_i) · W_i' = delta]. *)
Lemma sample_recovers_delta (D delta W' : mpreal) :
  W' <> Num.zero -> ((D + delta / W' - D) * W')%Qc = delta.
Proof. intros HW. unfold Num.zero in HW. field. exact HW. Qed.

(** C7: where delta is well defined, computing delta with [computeDelta],
    building the response samples from it with [computeC] and computing
    delta again with [computeDelta] from the same nodes and bands gives the
    first delta again, with either overload of [computeDelta]; the call
    sequence is defined and leaves the ambient precision unchanged, and
    every sample built on the way gives delta back as
    [(C_i − D_i) · W_i']. *)
Theorem delta_round_trip
  (x : list mpreal) (bands : list Band) (C : list mpreal)
  (prec s : mp_prec_t) :
  delta_well_defined x bands -> (length x <= length C)%nat ->
  exists delta C',
    round_trip x bands C prec s = Some ((delta, C', delta), s) /\
    round_trip_w x bands C prec s = Some ((delta, C', delta), s) /\
    delta = delta_formula (weights_formula x) x bands /\
    forall i, (i < length x)%nat ->
      ((at_ C' i - ideal_D bands (at_ x i)) * flipped_W bands x i)%Qc = delta.
Proof.
  intros (_ & _ & Hcov & HW & _) HC.
  set (delta := delta_formula (weights_formula x) x bands).
  destruct (@computeC_spec C delta x bands prec s Hcov HC)
    as (C' & Hrun & _ & HC').
  exists delta, C'. repeat split.
  - unfold round_trip, bind. rewrite computeDelta_spec by exact Hcov.
    fold delta. rewrite Hrun. rewrite computeDelta_spec by exact Hcov.
    reflexivity.
  - unfold round_trip_w, bind. rewrite barycentricWeights_fresh.
    rewrite computeDelta_w_spec
      by (try exact Hcov; apply weights_formula_length).
    fold delta. rewrite Hrun.
    rewrite computeDelta_w_spec
      by (try exact Hcov; apply weights_formula_length).
    reflexivity.
  - intros i Hi. rewrite (HC' i Hi).
    apply sample_recovers_delta, flipped_W_nonzero, HW, Hi.
Qed.

Lemma sample_delta_well_defined :
  delta_well_defined Sample.nodes Sample.bands.
Proof.
  split; [simpl; lia|]. split; [exact sample_nodes_distinct|].
  split; [exact sample_nodes_covered|]. split.
  - intros i Hi. simpl in Hi.
    destruct i as [|[|[|i]]]; try lia; qc_neq.
  - qc_neq.
Qed.

Lemma delta_round_trip_witness :
  delta_well_defined Sample.nodes Sample.bands /\
  (length Sample.nodes <= length (Vec.make 3))%nat /\
  exists delta C',
    round_trip Sample.nodes Sample.bands (Vec.make 3) default_prec 53%Z
      = Some ((delta, C', delta), 53%Z) /\
    round_trip_w Sample.nodes Sample.bands (Vec.make 3) default_prec 53%Z
      = Some ((delta, C', delta), 53%Z) /\
    delta = delta_formula (weights_formula Sample.nodes) Sample.nodes
              Sample.bands /\
    forall i, (i < length Sample.nodes)%nat ->
      ((at_ C' i - ideal_D Sample.bands (at_ Sample.nodes i)) *
       flipped_W Sample.bands Sample.nodes i)%Qc = delta.
Proof.
  split; [exact sample_delta_well_defined|]. split; [simpl; lia|].
  apply (@delta_round_trip Sample.nodes Sample.bands (Vec.make 3)
           default_prec 53%Z).
  - exact sample_delta_well_defined.
  - simpl; lia.
Defined.

(* ------------------------------------------------------------------ *)
(** ** The calls are defined on index-aligned vectors *)

Lemma delta_loop_defined (w x : list mpreal) (bands : list Band)
  (cnt i : nat) (num denom D W : mpreal) :
  (i + cnt = length w)%nat -> (length w <= length x)%nat ->
  exists r, delta_loop cnt i w x bands num denom D W = Some r.
Proof.
  revert i num denom D W.
  induction cnt as [|cnt IH]; intros i num denom D W Hi Hw; cbn [delta_loop].
  - eauto.
  - rewrite (@Vec_get_at x i), (@Vec_get_at w i) by lia.
    destruct computeIdealResponseAndWeight as [D' W'].
    apply IH; lia.
Qed.

Lemma C_loop_defined (delta : mpreal) (omega : list mpreal)
  (bands : list Band) (cnt i : nat) (C : list mpreal) (D W : mpreal) :
  (i + cnt = length omega)%nat -> (length omega <= length C)%nat ->
  exists C', C_loop cnt i C delta omega bands D W = Some C'.
Proof.
  revert i C D W.
  induction cnt as [|cnt IH]; intros i C D W Hi HC; cbn [C_loop].
  - eauto.
  - rewrite (@Vec_get_at omega i) by lia.
    destruct computeIdealResponseAndWeight as [D' W'].
    match goal with
    | |- context [Vec.set C i ?v] =>
        destruct (@Vec_set_some _ C i v) as [C1 HC1]; [lia|]; rewrite HC1
    end.
    apply IH; [lia|]. rewrite (Vec_set_length _ _ _ HC1). exact HC.
Qed.

Lemma approx_loop_defined (q : mpreal) (x C w : list mpreal)
  (cnt i : nat) (num denom : mpreal) :
  (i + cnt = length x)%nat ->
  (length x <= length C)%nat -> (length x <= length w)%nat ->
  exists e, approx_loop cnt i q x C w num denom = Some e.
Proof.
  revert i num denom.
  induction cnt as [|cnt IH]; intros i num denom Hi HC Hw; cbn [approx_loop].
  - eauto.
  - rewrite (@Vec_get_at x i), (@Vec_get_at w i), (@Vec_get_at C i) by lia.
    destruct (Num.eqb q (at_ x i)); [eauto|]. apply IH; lia.
Qed.

(** On vectors as long as the loops index them, every entry point returns,
    and returns with the ambient precision it was called with. *)
Lemma entry_points_defined (prec s : mp_prec_t) :
  (forall w x, (length x <= length w)%nat ->
     exists w', barycentricWeights w x prec s = Some (w', s)) /\
  (forall x bands, exists delta, computeDelta x bands prec s = Some (delta, s)) /\
  (forall w x bands, (length w <= length x)%nat ->
     exists delta, computeDelta_w w x bands prec s = Some (delta, s)) /\
  (forall C delta omega bands, (length omega <= length C)%nat ->
     exists C', computeC C delta omega bands prec s = Some (C', s)) /\
  (forall omega x C w,
     (length x <= length C)%nat -> (length x <= length w)%nat ->
     exists Pc, computeApprox omega x C w prec s = Some (Pc, s)) /\
  (forall xVal delta x C w bands,
     (length x <= length C)%nat -> (length x <= length w)%nat ->
     exists error, computeError xVal delta x C w bands prec s = Some (error, s)).
Proof.
  repeat split.
  - intros w x Hw.
    destruct (@barycentricWeights_spec w x prec s Hw) as (w' & Hrun & _).
    eauto.
  - intros x bands. rewrite computeDelta_run.
    pose proof (@barycentricWeights_fresh x prec s) as Hw.
    rewrite barycentricWeights_run in Hw.
    destruct weights_loop as [w|]; [|discriminate Hw]. injection Hw as ->.
    destruct (@delta_loop_defined (weights_formula x) x bands
                (length (weights_formula x)) 0%nat
                Num.zero Num.zero Num.zero Num.zero) as [r Hr];
      [lia|rewrite weights_formula_length; lia|].
    rewrite Hr. eauto.
  - intros w x bands Hw. rewrite computeDelta_w_run.
    destruct (@delta_loop_defined w x bands (length w) 0%nat
                Num.zero Num.zero Num.zero Num.zero) as [r Hr]; [lia|lia|].
    rewrite Hr. eauto.
  - intros C delta omega bands HC. rewrite computeC_run.
    destruct (@C_loop_defined delta omega bands (length omega) 0%nat C
                Num.zero Num.zero) as [C' HC']; [lia|lia|].
    rewrite HC'. eauto.
  - intros omega x C w HC Hw. rewrite computeApprox_run.
    destruct (@approx_loop_defined omega x C w (length x) 0%nat
                Num.zero Num.zero) as [[Pc|num denom] He]; try lia;
      rewrite He; eauto.
  - intros xVal delta x C w bands HC Hw. rewrite computeError_run.
    destruct error_loop; [eauto|].
    destruct computeIdealResponseAndWeight as [D W].
    destruct (@approx_loop_defined xVal x C w (length x) 0%nat
                Num.zero Num.zero) as [[Pc|num denom] He]; try lia;
      rewrite He; eauto.
Qed.

(* ------------------------------------------------------------------ *)
(** ** The sample iterate, evaluated *)

(** Nodes [-1, 0, 1]: weights [1/8, -1/4, 1/8]. *)
Example sample_weights :
  option_map (fun r => (map this (fst r), snd r))
    (barycentricWeights (Vec.make 3) Sample.nodes default_prec 53%Z) =
  Some ([1 # 8; -1 # 4; 1 # 8]%Q, 53%Z).
Proof. vm_compute. reflexivity. Qed.

(** [num = -1/8], [denom = -31/80], [delta = 10/31]. *)
Example sample_delta :
  option_map (fun r => (this (fst r), snd r))
    (computeDelta Sample.nodes Sample.bands default_prec 53%Z) =
  Some ((10 # 31)%Q, 53%Z).
Proof. vm_compute. reflexivity. Qed.

(** The samples for [delta = 1/2]: [1 + 1/2], [1 - 1/2], [0 + 1/20]. *)
Example sample_C :
  option_map (fun r => (map this (fst r), snd r))
    (computeC (Vec.make 3) (Sample.q 1 2) Sample.nodes Sample.bands
       default_prec 53%Z) =
  Some ([3 # 2; 1 # 2; 1 # 20]%Q, 53%Z).
Proof. vm_compute. reflexivity. Qed.

(** The error at the three nodes for [delta = 1/2]: [+1/2, -1/2, +1/2]. *)
Example sample_error_at_nodes :
  map (fun xVal =>
         option_map (fun r => (this (fst r), snd r))
           (computeError xVal (Sample.q 1 2) Sample.nodes
              (Vec.make 3) (Vec.make 3) Sample.bands default_prec 53%Z))
    Sample.nodes =
  [Some ((1 # 2)%Q, 53%Z); Some ((-1 # 2)%Q, 53%Z); Some ((1 # 2)%Q, 53%Z)].
Proof. vm_compute. reflexivity. Qed.

(** A response vector shorter than the node set: the write [C[i]] leaves
    the bounds. *)
Example sample_C_out_of_bounds :
  computeC (Vec.make 2) (Sample.q 1 2) Sample.nodes Sample.bands
    default_prec 53%Z = None.
Proof. vm_compute. reflexivity. Qed.

(* ================================================================== *)
(** * Further properties of the kernel *)

(* ------------------------------------------------------------------ *)
(** ** The lookup returns on the first band that contains the position *)

(** The first band of the collection that contains [xVal] (bounds
    included) decides the result, whatever [D] and [W] held and whatever
    bands follow it. *)
Theorem lookup_first_match
  (D W xVal : mpreal) (pre post : list Band) (it : Band) :
  Forall (outside xVal) pre ->
  (start it <= xVal)%Qc -> (xVal <= stop it)%Qc ->
  computeIdealResponseAndWeight D W xVal (pre ++ it :: post) =
  (amplitude it (space it) xVal, weight it (space it) xVal).
Proof.
  intros Hpre Hlo Hhi. induction Hpre as [|b pre Hb _ IH]; simpl.
  - rewrite (proj2 (in_band_true it xVal) (conj Hlo Hhi)). reflexivity.
  - rewrite (outside_in_band Hb). exact IH.
Qed.

Lemma lookup_first_match_witness :
  Forall (outside (Sample.q 1 2)) [Sample.passband] /\
  (start Sample.stopband <= Sample.q 1 2)%Qc /\
  (Sample.q 1 2 <= stop Sample.stopband)%Qc /\
  computeIdealResponseAndWeight (Sample.q 7 1) (Sample.q 9 1) (Sample.q 1 2)
    ([Sample.passband] ++ Sample.stopband :: [Sample2.wideband]) =
  (amplitude Sample.stopband (space Sample.stopband) (Sample.q 1 2),
   weight Sample.stopband (space Sample.stopband) (Sample.q 1 2)).
Proof.
  assert (H1 : Forall (outside (Sample.q 1 2)) [Sample.passband]).
  { apply Forall_cons; [right; reflexivity|apply Forall_nil]. }
  assert (H2 : (start Sample.stopband <= Sample.q 1 2)%Qc).
  { apply (reflect_iff _ _ (Num_leb_spec _ _)). reflexivity. }
  assert (H3 : (Sample.q 1 2 <= stop Sample.stopband)%Qc).
  { apply (reflect_iff _ _ (Num_leb_spec _ _)). reflexivity. }
  split; [exact H1|]. split; [exact H2|]. split; [exact H3|].
  apply (@lookup_first_match _ _ _ [Sample.passband] [Sample2.wideband]
           Sample.stopband H1 H2 H3).
Defined.

(* ------------------------------------------------------------------ *)
(** ** computeError away from the nodes *)

Lemma error_loop_none (xVal delta : mpreal) (x : list mpreal) (cnt i : nat) :
  (i + cnt = length x)%nat ->
  (forall k, (i <= k < length x)%nat -> at_ x k <> xVal) ->
  error_loop cnt i xVal delta x = None.
Proof.
  revert i. induction cnt as [|cnt IH]; intros i Hi Hne; cbn [error_loop].
  - reflexivity.
  - rewrite (@Vec_get_at x i) by lia.
    rewrite Num_eqb_neq by (intros E; apply (Hne i); [lia|congruence]).
    apply IH; [lia|]. intros; apply Hne; lia.
Qed.

Lemma not_in_at (x : list mpreal) (q : mpreal) :
  ~ In q x -> forall k, (k < length x)%nat -> at_ x k <> q.
Proof.
  intros Hq k Hk E. apply Hq. rewrite <- E. apply nth_In, Hk.
Qed.

(** Away from the nodes the call falls through both loops and the result
    is the quotient of the two sums, less [D], times [W], whatever [D] and
    [W] the lookup returned. *)
Lemma computeError_fall_through
  (xVal delta : mpreal) (x C w : list mpreal) (bands : list Band)
  (prec s : mp_prec_t) :
  ~ In xVal x -> length C = length x -> length w = length x ->
  computeError xVal delta x C w bands prec s =
  let '(D, W) := computeIdealResponseAndWeight Num.zero Num.zero xVal bands in
  Some (((approx_num xVal x C w / approx_denom xVal x w - D) * W)%Qc, s).
Proof.
  intros Hq HC Hw. rewrite computeError_run.
  rewrite error_loop_none
    by first [lia | intros k Hk; apply not_in_at; [assumption|lia]].
  destruct computeIdealResponseAndWeight as [D W].
  rewrite approx_loop_sums
    by first [lia | intros k Hk; apply not_in_at; [assumption|lia]].
  unfold approx_num, approx_denom, Num.zero. rewrite !Qcplus_0_l.
  reflexivity.
Qed.

(** At a query that equals no node and lies inside a band, [computeError]
    returns [(num / denom − D) · W]: the value of [computeApprox] at the
    query, less the ideal amplitude there, times the ideal weight there. *)
Theorem computeError_off_nodes
  (xVal delta : mpreal) (x C w : list mpreal) (bands : list Band)
  (prec s : mp_prec_t) :
  ~ In xVal x -> length C = length x -> length w = length x ->
  covered bands xVal ->
  computeError xVal delta x C w bands prec s =
    Some (((approx_num xVal x C w / approx_denom xVal x w
            - ideal_D bands xVal) * ideal_W bands xVal)%Qc, s) /\
  computeApprox xVal x C w prec s =
    Some ((approx_num xVal x C w / approx_denom xVal x w)%Qc, s).
Proof.
  intros Hq HC Hw Hcov. split.
  - rewrite computeError_fall_through by assumption.
    rewrite lookup_covered by exact Hcov. reflexivity.
  - rewrite computeApprox_run.
    rewrite approx_loop_sums
      by first [lia | intros k Hk; apply not_in_at; [assumption|lia]].
    unfold approx_num, approx_denom, Num.zero. rewrite !Qcplus_0_l.
    reflexivity.
Qed.

Ltac qc_le := apply (reflect_iff _ _ (Num_leb_spec _ _)); reflexivity.

Ltac not_a_node :=
  simpl;
  repeat (let H := fresh in intros [H|H]; [revert H; qc_neq|revert H]);
  intros [].

Lemma computeError_off_nodes_witness :
  ~ In (Sample.q (-1) 2) Sample.nodes /\
  length (Vec.make 3) = length Sample.nodes /\
  length (weights_formula Sample.nodes) = length Sample.nodes /\
  covered Sample.bands (Sample.q (-1) 2) /\
  computeError (Sample.q (-1) 2) (Sample.q 1 2) Sample.nodes (Vec.make 3)
    (weights_formula Sample.nodes) Sample.bands default_prec 53%Z =
    Some (((approx_num (Sample.q (-1) 2) Sample.nodes (Vec.make 3)
              (weights_formula Sample.nodes) /
            approx_denom (Sample.q (-1) 2) Sample.nodes
              (weights_formula Sample.nodes)
            - ideal_D Sample.bands (Sample.q (-1) 2)) *
           ideal_W Sample.bands (Sample.q (-1) 2))%Qc, 53%Z) /\
  computeApprox (Sample.q (-1) 2) Sample.nodes (Vec.make 3)
    (weights_formula Sample.nodes) default_prec 53%Z =
    Some ((approx_num (Sample.q (-1) 2) Sample.nodes (Vec.make 3)
             (weights_formula Sample.nodes) /
           approx_denom (Sample.q (-1) 2) Sample.nodes
             (weights_formula Sample.nodes))%Qc, 53%Z).
Proof.
  assert (H1 : ~ In (Sample.q (-1) 2) Sample.nodes) by not_a_node.
  assert (H4 : covered Sample.bands (Sample.q (-1) 2)).
  { apply (@covered_by_band Sample.passband); [simpl; auto|reflexivity]. }
  split; [exact H1|]. split; [reflexivity|]. split; [reflexivity|].
  split; [exact H4|].
  apply (@computeError_off_nodes (Sample.q (-1) 2) (Sample.q 1 2)
           Sample.nodes (Vec.make 3) (weights_formula Sample.nodes)
           Sample.bands default_prec 53%Z H1 eq_refl eq_refl H4).
Defined.

Lemma lookup_uncovered
  (D W xVal : mpreal) (bands : list Band) :
  uncovered bands xVal ->
  computeIdealResponseAndWeight D W xVal bands = (D, W).
Proof.
  induction 1 as [|it rest Hit _ IH]; simpl.
  - reflexivity.
  - rewrite (outside_in_band Hit). exact IH.
Qed.

(** At a query that equals no node and lies outside every band the lookup
    leaves [D = W = 0], and the weighted error is 0 whatever the
    interpolant is there. *)
Theorem computeError_outside_bands
  (xVal delta : mpreal) (x C w : list mpreal) (bands : list Band)
  (prec s : mp_prec_t) :
  ~ In xVal x -> length C = length x -> length w = length x ->
  uncovered bands xVal -> approx_denom xVal x w <> Num.zero ->
  computeError xVal delta x C w bands prec s = Some (Num.zero, s).
Proof.
  intros Hq HC Hw Hout _.
  rewrite computeError_fall_through by assumption.
  rewrite lookup_uncovered by exact Hout.
  f_equal. f_equal. unfold Num.zero. ring.
Qed.

Lemma sample_gap_uncovered : uncovered Sample.bands Sample2.gap.
Proof.
  apply Forall_cons; [right; reflexivity|].
  apply Forall_cons; [left; reflexivity|]. apply Forall_nil.
Qed.

Lemma sample_gap_not_a_node : ~ In Sample2.gap Sample.nodes.
Proof. unfold Sample2.gap. not_a_node. Qed.

Lemma sample_gap_denom :
  approx_denom Sample2.gap Sample.nodes (weights_formula Sample.nodes)
  <> Num.zero.
Proof. qc_neq. Qed.

Lemma computeError_outside_bands_witness :
  ~ In Sample2.gap Sample.nodes /\
  length (Vec.make 3) = length Sample.nodes /\
  length (weights_formula Sample.nodes) = length Sample.nodes /\
  uncovered Sample.bands Sample2.gap /\
  approx_denom Sample2.gap Sample.nodes (weights_formula Sample.nodes)
    <> Num.zero /\
  computeError Sample2.gap (Sample.q 1 2) Sample.nodes (Vec.make 3)
    (weights_formula Sample.nodes) Sample.bands default_prec 53%Z =
  Some (Num.zero, 53%Z).
Proof.
  split; [exact sample_gap_not_a_node|]. split; [reflexivity|].
  split; [reflexivity|]. split; [exact sample_gap_uncovered|].
  split; [exact sample_gap_denom|].
  apply (@computeError_outside_bands Sample2.gap (Sample.q 1 2)
           Sample.nodes (Vec.make 3) (weights_formula Sample.nodes)
           Sample.bands default_prec 53%Z sample_gap_not_a_node
           eq_refl eq_refl sample_gap_uncovered sample_gap_denom).
Defined.

(* ------------------------------------------------------------------ *)
(** ** computeApprox reproduces constant samples *)

Lemma sum_scaled (c : mpreal) (f : nat -> mpreal) (l : list nat) :
  Num.sum (map (fun i => f i * c)%Qc l) = (Num.sum (map f l) * c)%Qc.
Proof.
  unfold Num.sum, Num.zero. induction l as [|a l IH]; simpl; [ring|].
  rewrite IH. ring.
Qed.

Lemma approx_num_constant (c q : mpreal) (x C w : list mpreal) :
  (forall i, (i < length x)%nat -> at_ C i = c) ->
  approx_num q x C w = (approx_denom q x w * c)%Qc.
Proof.
  intros HC. unfold approx_num, approx_denom. rewrite <- sum_scaled.
  f_equal. apply map_ext_in. intros i Hi. apply in_seq in Hi.
  rewrite HC by lia. reflexivity.
Qed.

(** When every sample is the same value [c], [computeApprox] returns [c]
    at every query: at a node through the exact match, away from the nodes
    because [num = c · denom] (for a denominator sum that is not zero),
    whatever the weights are. *)
Theorem computeApprox_constant
  (c q : mpreal) (x C w : list mpreal) (prec s : mp_prec_t) :
  length C = length x -> length w = length x ->
  (forall i, (i < length x)%nat -> at_ C i = c) ->
  In q x \/ approx_denom q x w <> Num.zero ->
  computeApprox q x C w prec s = Some (c, s).
Proof.
  intros HC Hw Hc Hq. rewrite computeApprox_run.
  destruct (in_dec Qc_eq_dec q x) as [Hin|Hnin].
  - clear Hq.
    assert (Hfirst : exists m, (m < length x)%nat /\ at_ x m = q /\
                               forall k, (k < m)%nat -> at_ x k <> q).
    { clear HC Hw Hc. induction x as [|a l IH]; [contradiction|].
      destruct (Qc_eq_dec a q) as [->|Hne].
      - exists 0%nat. simpl. repeat split; [lia|]. intros; lia.
      - destruct Hin as [Ha|Hin]; [contradiction|].
        destruct (IH Hin) as (m & Hm & Hq & Hk).
        exists (S m). simpl. repeat split; [lia|exact Hq|].
        intros [|k] Hlt; [exact Hne|]. apply Hk. lia. }
    destruct Hfirst as (m & Hm & Hxm & Hk).
    rewrite (@approx_loop_match q x C w) with (m := m); try lia;
      try assumption.
    + rewrite Hc by exact Hm. reflexivity.
    + intros k Hlt. apply Hk. lia.
  - destruct Hq as [Hin|Hd]; [contradiction|].
    rewrite approx_loop_sums
      by first [lia | intros k Hk; apply not_in_at; [assumption|lia]].
    fold (approx_num q x C w) (approx_denom q x w).
    unfold Num.zero. rewrite !Qcplus_0_l.
    rewrite (@approx_num_constant c q x C w Hc). f_equal. f_equal.
    unfold Num.zero in Hd. field. exact Hd.
Qed.

Lemma computeApprox_constant_witness :
  length (repeat (Sample.q 3 1) 3) = length Sample.nodes /\
  length (weights_formula Sample.nodes) = length Sample.nodes /\
  (forall i, (i < length Sample.nodes)%nat ->
     at_ (repeat (Sample.q 3 1) 3) i = Sample.q 3 1) /\
  (In Sample2.gap Sample.nodes \/
   approx_denom Sample2.gap Sample.nodes (weights_formula Sample.nodes)
     <> Num.zero) /\
  computeApprox Sample2.gap Sample.nodes (repeat (Sample.q 3 1) 3)
    (weights_formula Sample.nodes) default_prec 53%Z =
  Some (Sample.q 3 1, 53%Z).
Proof.
  assert (H3 : forall i, (i < length Sample.nodes)%nat ->
                 at_ (repeat (Sample.q 3 1) 3) i = Sample.q 3 1).
  { intros i Hi. simpl in Hi.
    destruct i as [|[|[|i]]]; try reflexivity; lia. }
  split; [reflexivity|]. split; [reflexivity|]. split; [exact H3|].
  split; [right; exact sample_gap_denom|].
  apply (@computeApprox_constant (Sample.q 3 1) Sample2.gap Sample.nodes
           (repeat (Sample.q 3 1) 3) (weights_formula Sample.nodes)
           default_prec 53%Z eq_refl eq_refl H3
           (or_intror sample_gap_denom)).
Defined.

(* ------------------------------------------------------------------ *)
(** ** Repeated nodes: the first occurrence decides *)

Lemma approx_loop_first_match (q : mpreal) (x C w : list mpreal)
  (m cnt i : nat) (num denom : mpreal) :
  (i + cnt = length x)%nat -> (i <= m < length x)%nat ->
  (m < length C)%nat -> (m <= length w)%nat ->
  at_ x m = q ->
  (forall k, (i <= k < m)%nat -> at_ x k <> q) ->
  approx_loop cnt i q x C w num denom = Some (ExactMatch (at_ C m)).
Proof.
  revert i num denom.
  induction cnt as [|cnt IH]; intros i num denom Hi Hm HC Hw Hq Hne;
    cbn [approx_loop]; [lia|].
  rewrite (@Vec_get_at x i) by lia.
  destruct (Nat.eq_dec i m) as [->|Him].
  - rewrite Hq, Num_eqb_refl, (@Vec_get_at C m) by lia. reflexivity.
  - rewrite Num_eqb_neq by (intros E; apply (Hne i); [lia|congruence]).
    rewrite (@Vec_get_at w i), (@Vec_get_at C i) by lia.
    apply IH; try lia; try assumption. intros; apply Hne; lia.
Qed.

(** [computeApprox] returns at the first index [m] whose node equals the
    query, with [C_m]: nodes need not be distinct, and only [C[0..m]] and
    [w[0..m-1]] are read, so the vectors may be shorter than the node
    set. *)
Theorem computeApprox_first_match
  (q : mpreal) (x C w : list mpreal) (prec s : mp_prec_t) (m : nat) :
  (m < length x)%nat -> (m < length C)%nat -> (m <= length w)%nat ->
  at_ x m = q -> (forall k, (k < m)%nat -> at_ x k <> q) ->
  computeApprox q x C w prec s = Some (at_ C m, s).
Proof.
  intros Hm HC Hw Hq Hne. rewrite computeApprox_run.
  rewrite (@approx_loop_first_match q x C w m); try lia; try assumption.
  - reflexivity.
  - intros k Hk. apply Hne. lia.
Qed.

Lemma computeApprox_first_match_witness :
  (1 < length Sample2.repeated)%nat /\
  (1 < length [Sample.q 4 1; Sample.q 5 1])%nat /\
  (1 <= length [Sample.q 6 1])%nat /\
  at_ Sample2.repeated 1 = Sample.q 1 1 /\
  (forall k, (k < 1)%nat -> at_ Sample2.repeated k <> Sample.q 1 1) /\
  computeApprox (Sample.q 1 1) Sample2.repeated
    [Sample.q 4 1; Sample.q 5 1] [Sample.q 6 1] default_prec 53%Z =
  Some (at_ [Sample.q 4 1; Sample.q 5 1] 1, 53%Z).
Proof.
  assert (H5 : forall k, (k < 1)%nat ->
                 at_ Sample2.repeated k <> Sample.q 1 1).
  { intros k Hk. destruct k as [|k]; [qc_neq|lia]. }
  split; [simpl; lia|]. split; [simpl; lia|]. split; [simpl; lia|].
  split; [reflexivity|]. split; [exact H5|].
  apply (@computeApprox_first_match (Sample.q 1 1) Sample2.repeated
           [Sample.q 4 1; Sample.q 5 1] [Sample.q 6 1] default_prec 53%Z 1);
    try (simpl; lia); [reflexivity|exact H5].
Defined.

(** [computeError] returns at the first index [m] whose node equals the
    query, with [+delta] for even [m] and [-delta] for odd [m]: nodes need
    not be distinct, and neither [C], [w] nor the bands are read. *)
Theorem computeError_first_match
  (xVal delta : mpreal) (x C w : list mpreal) (bands : list Band)
  (prec s : mp_prec_t) (m : nat) :
  (m < length x)%nat -> at_ x m = xVal ->
  (forall k, (k < m)%nat -> at_ x k <> xVal) ->
  computeError xVal delta x C w bands prec s =
  Some (if Nat.even m then delta else (- delta)%Qc, s).
Proof.
  intros Hm Hq Hne. rewrite computeError_run.
  rewrite (@error_loop_match xVal delta x m); try lia; try assumption.
  - reflexivity.
  - intros k Hk. apply Hne. lia.
Qed.

Lemma computeError_first_match_witness :
  (1 < length Sample2.repeated)%nat /\
  at_ Sample2.repeated 1 = Sample.q 1 1 /\
  (forall k, (k < 1)%nat -> at_ Sample2.repeated k <> Sample.q 1 1) /\
  computeError (Sample.q 1 1) (Sample.q 1 2) Sample2.repeated [] []
    [] default_prec 53%Z =
  Some (if Nat.even 1 then Sample.q 1 2 else (- Sample.q 1 2)%Qc, 53%Z).
Proof.
  assert (H5 : forall k, (k < 1)%nat ->
                 at_ Sample2.repeated k <> Sample.q 1 1).
  { intros k Hk. destruct k as [|k]; [qc_neq|lia]. }
  split; [simpl; lia|]. split; [reflexivity|]. split; [exact H5|].
  apply (@computeError_first_match (Sample.q 1 1) (Sample.q 1 2)
           Sample2.repeated [] [] [] default_prec 53%Z 1);
    [simpl; lia|reflexivity|exact H5].
Defined.

(* ------------------------------------------------------------------ *)
(** ** What the output vectors look like after the call *)

Lemma at_weights_formula (x : list mpreal) (k : nat) :
  (k < length x)%nat -> at_ (weights_formula x) k = weight_formula x k.
Proof.
  intros Hk. unfold at_, weights_formula.
  rewrite (nth_indep _ Num.zero (weight_formula x 0%nat))
    by (rewrite length_map, length_seq; exact Hk).
  rewrite map_nth, seq_nth by exact Hk. reflexivity.
Qed.

Lemma barycentricWeights_closed (w x : list mpreal) (prec s : mp_prec_t) :
  (length x <= length w)%nat ->
  barycentricWeights w x prec s =
  Some (weights_formula x ++ skipn (length x) w, s).
Proof.
  intros Hw.
  destruct (@barycentricWeights_spec w x prec s Hw)
    as (w' & Hrun & Hlen & Hnew & Hold).
  rewrite Hrun. f_equal. f_equal. apply nth_error_ext. intros k.
  destruct (Nat.lt_ge_cases k (length x)) as [Hk|Hk].
  - rewrite nth_error_app1 by (rewrite weights_formula_length; exact Hk).
    fold (Vec.get w' k) (Vec.get (weights_formula x) k).
    rewrite !Vec_get_at by (rewrite ?weights_formula_length; lia).
    rewrite (Hnew k Hk), at_weights_formula by exact Hk. reflexivity.
  - rewrite nth_error_app2 by (rewrite weights_formula_length; exact Hk).
    rewrite weights_formula_length, nth_error_skipn.
    replace (length x + (k - length x))%nat with k by lia.
    apply Hold, Hk.
Qed.

(** On a vector [w] at least as long as the node set,
    [barycentricWeights] overwrites the first [x.size()] entries with the
    weights and leaves the entries behind them as they were. *)
Theorem barycentricWeights_result (w x : list mpreal) (prec s : mp_prec_t) :
  (length x <= length w)%nat ->
  barycentricWeights w x prec s =
  Some (weights_formula x ++ skipn (length x) w, s).
Proof. apply barycentricWeights_closed. Qed.

Lemma barycentricWeights_result_witness :
  (length Sample.nodes <= length (repeat (Sample.q 9 1) 5))%nat /\
  barycentricWeights (repeat (Sample.q 9 1) 5) Sample.nodes default_prec 53%Z
  = Some (weights_formula Sample.nodes ++
          skipn (length Sample.nodes) (repeat (Sample.q 9 1) 5), 53%Z).
Proof.
  split; [simpl; lia|].
  apply (@barycentricWeights_result (repeat (Sample.q 9 1) 5) Sample.nodes
           default_prec 53%Z).
  simpl; lia.
Defined.

Lemma C_loop_frame (delta : mpreal) (omega : list mpreal)
  (bands : list Band) (cnt i : nat) (C : list mpreal) (D W : mpreal) :
  (i + cnt = length omega)%nat -> (length omega <= length C)%nat ->
  exists C',
    C_loop cnt i C delta omega bands D W = Some C' /\
    length C' = length C /\
    forall k, (k < i \/ length omega <= k)%nat -> Vec.get C' k = Vec.get C k.
Proof.
  revert i C D W.
  induction cnt as [|cnt IH]; intros i C D W Hi HC; cbn [C_loop].
  - exists C. repeat split; intros; reflexivity.
  - rewrite (@Vec_get_at omega i) by lia.
    destruct computeIdealResponseAndWeight as [D' W'].
    match goal with
    | |- context [Vec.set C i ?v] =>
        destruct (@Vec_set_some _ C i v) as [C1 HC1]; [lia|]; rewrite HC1
    end.
    pose proof (Vec_set_length _ _ _ HC1) as Hlen.
    match goal with
    | |- context [C_loop cnt (S i) C1 delta omega bands ?d ?w] =>
        destruct (IH (S i) C1 d w) as (C' & Hrun & Hlen' & Hold); [lia|lia|]
    end.
    exists C'. split; [exact Hrun|]. split; [congruence|].
    intros k Hk. rewrite Hold by lia.
    apply (Vec_get_set_other _ _ HC1). lia.
Qed.

(** On a vector [C] at least as long as the node set, [computeC] is
    defined for any nodes and bands, keeps the length of [C] and leaves
    the entries behind the first [omega.size()] as they were. *)
Theorem computeC_frame
  (C : list mpreal) (delta : mpreal) (omega : list mpreal)
  (bands : list Band) (prec s : mp_prec_t) :
  (length omega <= length C)%nat ->
  exists C',
    computeC C delta omega bands prec s = Some (C', s) /\
    length C' = length C /\
    skipn (length omega) C' = skipn (length omega) C.
Proof.
  intros HC. rewrite computeC_run.
  destruct (@C_loop_frame delta omega bands (length omega) 0%nat C
              Num.zero Num.zero) as (C' & Hrun & Hlen & Hold); [lia|lia|].
  rewrite Hrun. exists C'. split; [reflexivity|]. split; [exact Hlen|].
  apply nth_error_ext. intros k. rewrite !nth_error_skipn.
  apply Hold. lia.
Qed.

Lemma computeC_frame_witness :
  (length Sample2.gapped <= length (repeat (Sample.q 9 1) 5))%nat /\
  exists C',
    computeC (repeat (Sample.q 9 1) 5) (Sample.q 1 2) Sample2.gapped
      Sample.bands default_prec 53%Z = Some (C', 53%Z) /\
    length C' = length (repeat (Sample.q 9 1) 5) /\
    skipn (length Sample2.gapped) C' =
    skipn (length Sample2.gapped) (repeat (Sample.q 9 1) 5).
Proof.
  split; [simpl; lia|].
  apply (@computeC_frame (repeat (Sample.q 9 1) 5) (Sample.q 1 2)
           Sample2.gapped Sample.bands default_prec 53%Z).
  simpl; lia.
Defined.

(* ------------------------------------------------------------------ *)
(** ** When the calls leave the bounds of a vector *)

Lemma Vec_set_none (A : Type) (v : list A) (i : nat) (a : A) :
  (length v <= i)%nat -> Vec.set v i a = None.
Proof.
  revert i. induction v as [|h t IH]; intros i Hi; simpl.
  - reflexivity.
  - destruct i as [|i]; simpl in Hi; [lia|].
    rewrite IH by lia. reflexivity.
Qed.

Lemma weights_loop_fail (x : list mpreal) (step cnt i : nat) (w : list mpreal) :
  (i + cnt = length x)%nat -> (i <= length w)%nat ->
  (length w < length x)%nat ->
  weights_loop cnt x step i w = None.
Proof.
  revert i w. induction cnt as [|cnt IH]; intros i w Hi Hiw Hw;
    cbn [weights_loop]; [lia|].
  rewrite (@Vec_get_at x i) by lia. cbv zeta.
  destruct (Nat.eq_dec i (length w)) as [->|Hne].
  - rewrite Vec_set_none by lia. reflexivity.
  - match goal with
    | |- context [Vec.set w i ?v] =>
        destruct (@Vec_set_some _ w i v) as [w1 Hw1]; [lia|]; rewrite Hw1
    end.
    pose proof (Vec_set_length _ _ _ Hw1) as Hlen.
    apply IH; lia.
Qed.

(** [barycentricWeights] writes outside [w] exactly when [w] is shorter
    than the node set. *)
Theorem barycentricWeights_undefined_iff
  (w x : list mpreal) (prec s : mp_prec_t) :
  barycentricWeights w x prec s = None <-> (length w < length x)%nat.
Proof.
  split.
  - intros H. destruct (Nat.lt_ge_cases (length w) (length x)) as [Hlt|Hge];
      [exact Hlt|].
    destruct (@barycentricWeights_spec w x prec s Hge) as (w' & Hrun & _).
    congruence.
  - intros Hlt. rewrite barycentricWeights_run.
    rewrite weights_loop_fail by lia. reflexivity.
Qed.

Lemma C_loop_fail (delta : mpreal) (omega : list mpreal) (bands : list Band)
  (cnt i : nat) (C : list mpreal) (D W : mpreal) :
  (i + cnt = length omega)%nat -> (i <= length C)%nat ->
  (length C < length omega)%nat ->
  C_loop cnt i C delta omega bands D W = None.
Proof.
  revert i C D W. induction cnt as [|cnt IH]; intros i C D W Hi HiC HC;
    cbn [C_loop]; [lia|].
  rewrite (@Vec_get_at omega i) by lia.
  destruct computeIdealResponseAndWeight as [D' W'].
  destruct (Nat.eq_dec i (length C)) as [->|Hne].
  - rewrite Vec_set_none by lia. reflexivity.
  - match goal with
    | |- context [Vec.set C i ?v] =>
        destruct (@Vec_set_some _ C i v) as [C1 HC1]; [lia|]; rewrite HC1
    end.
    pose proof (Vec_set_length _ _ _ HC1) as Hlen.
    apply IH; lia.
Qed.

(** [computeC] writes outside [C] exactly when [C] is shorter than the
    node set. *)
Theorem computeC_undefined_iff
  (C : list mpreal) (delta : mpreal) (omega : list mpreal)
  (bands : list Band) (prec s : mp_prec_t) :
  computeC C delta omega bands prec s = None <->
  (length C < length omega)%nat.
Proof.
  split.
  - intros H. destruct (Nat.lt_ge_cases (length C) (length omega))
      as [Hlt|Hge]; [exact Hlt|].
    rewrite computeC_run in H.
    destruct (@C_loop_defined delta omega bands (length omega) 0%nat C
                Num.zero Num.zero) as [C' HC']; [lia|lia|].
    rewrite HC' in H. discriminate H.
  - intros Hlt. rewrite computeC_run.
    rewrite C_loop_fail by lia. reflexivity.
Qed.

Lemma delta_loop_fail (w x : list mpreal) (bands : list Band)
  (cnt i : nat) (num denom D W : mpreal) :
  (i + cnt = length w)%nat -> (i <= length x)%nat ->
  (length x < length w)%nat ->
  delta_loop cnt i w x bands num denom D W = None.
Proof.
  revert i num denom D W.
  induction cnt as [|cnt IH]; intros i num denom D W Hi Hix Hx;
    cbn [delta_loop]; [lia|].
  destruct (Nat.eq_dec i (length x)) as [->|Hne].
  - unfold Vec.get at 1.
    rewrite (proj2 (nth_error_None x (length x))) by lia. reflexivity.
  - rewrite (@Vec_get_at x i), (@Vec_get_at w i) by lia.
    destruct computeIdealResponseAndWeight as [D' W'].
    apply IH; lia.
Qed.

(** The overload of [computeDelta] that is given the weights reads
    outside [x] exactly when [w] is longer than [x]. *)
Theorem computeDelta_w_undefined_iff
  (w x : list mpreal) (bands : list Band) (prec s : mp_prec_t) :
  computeDelta_w w x bands prec s = None <-> (length x < length w)%nat.
Proof.
  split.
  - intros H. destruct (Nat.lt_ge_cases (length x) (length w)) as [Hlt|Hge];
      [exact Hlt|].
    rewrite computeDelta_w_run in H.
    destruct (@delta_loop_defined w x bands (length w) 0%nat
                Num.zero Num.zero Num.zero Num.zero) as [r Hr]; [lia|lia|].
    rewrite Hr in H. discriminate H.
  - intros Hlt. rewrite computeDelta_w_run.
    rewrite delta_loop_fail by lia. reflexivity.
Qed.

Lemma delta_loop_prefix (w x : list mpreal) (bands : list Band)
  (cnt i : nat) (num denom D W : mpreal) :
  (i + cnt = length w)%nat ->
  delta_loop cnt i w x bands num denom D W =
  delta_loop cnt i w (firstn (length w) x) bands num denom D W.
Proof.
  revert i num denom D W.
  induction cnt as [|cnt IH]; intros i num denom D W Hi; cbn [delta_loop].
  - reflexivity.
  - unfold Vec.get at 1 3. rewrite nth_error_firstn.
    destruct (Nat.ltb_spec i (length w)); [|lia].
    destruct (nth_error x i) as [xi|]; [|reflexivity].
    destruct (Vec.get w i) as [wi|]; [|reflexivity].
    destruct computeIdealResponseAndWeight as [D' W'].
    apply IH. lia.
Qed.

(** The loop of [computeDelta] is bounded by [w.size()]: the nodes of
    index [w.size()] and beyond are never read, so the call gives what it
    gives on the first [w.size()] nodes alone. *)
Theorem computeDelta_w_ignores_trailing_nodes
  (w x : list mpreal) (bands : list Band) (prec s : mp_prec_t) :
  computeDelta_w w x bands prec s =
  computeDelta_w w (firstn (length w) x) bands prec s.
Proof.
  rewrite !computeDelta_w_run.
  rewrite <- delta_loop_prefix by lia. reflexivity.
Qed.

(** The overload of [computeDelta] that takes only the nodes is the other
    overload run on the weights [barycentricWeights] computes into a fresh
    vector, for any nodes and bands; in particular it never leaves the
    bounds of a vector. *)
Theorem computeDelta_overloads_agree
  (x : list mpreal) (bands : list Band) (prec s : mp_prec_t) :
  computeDelta x bands prec s =
    (w <- barycentricWeights (Vec.make (length x)) x default_prec ;;
     computeDelta_w w x bands prec) s /\
  exists delta, computeDelta x bands prec s = Some (delta, s).
Proof.
  split.
  - rewrite computeDelta_run. unfold bind.
    rewrite barycentricWeights_run.
    destruct weights_loop as [w|]; [|reflexivity].
    rewrite computeDelta_w_run. reflexivity.
  - rewrite computeDelta_run.
    pose proof (@barycentricWeights_fresh x prec s) as Hw.
    rewrite barycentricWeights_run in Hw.
    destruct weights_loop as [w|]; [|discriminate Hw]. injection Hw as ->.
    destruct (@delta_loop_defined (weights_formula x) x bands
                (length (weights_formula x)) 0%nat
                Num.zero Num.zero Num.zero Num.zero) as [r Hr];
      [lia|rewrite weights_formula_length; lia|].
    rewrite Hr. eauto.
Qed.

(* ------------------------------------------------------------------ *)
(** ** A node outside every band in computeC *)

Lemma C_loop_stale (delta : mpreal) (omega : list mpreal) (bands : list Band)
  (m : nat) :
  (S m < length omega)%nat ->
  covered bands (at_ omega m) -> uncovered bands (at_ omega (S m)) ->
  forall (cnt i : nat) (C : list mpreal) (D W : mpreal),
  (i + cnt = length omega)%nat -> (length omega <= length C)%nat ->
  (i <= m)%nat ->
  exists C',
    C_loop cnt i C delta omega bands D W = Some C' /\
    Vec.get C' (S m) =
    Some (ideal_D bands (at_ omega m)
          + delta / - ideal_W bands (at_ omega m))%Qc.
Proof.
  intros Hm Hcov Hunc.
  induction cnt as [|cnt IH]; intros i C D W Hi HC Him; [lia|].
  cbn [C_loop]. rewrite (@Vec_get_at omega i) by lia.
  destruct (Nat.eq_dec i m) as [->|Hne].
  - rewrite lookup_covered by exact Hcov. rewrite parity_test_odd.
    match goal with
    | |- context [Vec.set C m ?v] =>
        destruct (@Vec_set_some _ C m v) as [C1 HC1]; [lia|]; rewrite HC1
    end.
    pose proof (Vec_set_length _ _ _ HC1) as Hlen1.
    destruct cnt as [|cnt]; [lia|].
    cbn [C_loop]. rewrite (@Vec_get_at omega (S m)) by lia.
    rewrite lookup_uncovered by exact Hunc. rewrite parity_test_odd.
    match goal with
    | |- context [Vec.set C1 (S m) ?v] =>
        destruct (@Vec_set_some _ C1 (S m) v) as [C2 HC2]; [lia|];
        rewrite HC2
    end.
    pose proof (Vec_set_length _ _ _ HC2) as Hlen2.
    match goal with
    | |- context [C_loop cnt (S (S m)) C2 delta omega bands ?d ?w] =>
        destruct (@C_loop_frame delta omega bands cnt (S (S m)) C2 d w)
          as (C' & Hrun & _ & Hold); [lia|lia|]
    end.
    exists C'. split; [exact Hrun|].
    rewrite Hold by lia. rewrite (Vec_get_set_same _ _ _ HC2).
    rewrite Nat.odd_succ, <- Nat.negb_odd.
    destruct (Nat.odd m); reflexivity.
  - destruct computeIdealResponseAndWeight as [D' W'].
    match goal with
    | |- context [Vec.set C i ?v] =>
        destruct (@Vec_set_some _ C i v) as [C1 HC1]; [lia|]; rewrite HC1
    end.
    pose proof (Vec_set_length _ _ _ HC1) as Hlen1.
    apply IH; lia.
Qed.

(** A node outside every band gets the values of the node before it: when
    node [m] lies inside a band and node [m + 1] outside every band, the
    lookup for node [m + 1] leaves [D] and the (possibly negated) [W] of
    node [m] in place, and [computeC] writes
    [C_{m+1} = D_m + delta / (− W_m)], whatever the parity of [m]. *)
Theorem computeC_stale_lookup
  (C : list mpreal) (delta : mpreal) (omega : list mpreal)
  (bands : list Band) (prec s : mp_prec_t) (m : nat) :
  (length omega <= length C)%nat -> (S m < length omega)%nat ->
  covered bands (at_ omega m) -> uncovered bands (at_ omega (S m)) ->
  exists C',
    computeC C delta omega bands prec s = Some (C', s) /\
    at_ C' (S m) =
    (ideal_D bands (at_ omega m) + delta / - ideal_W bands (at_ omega m))%Qc.
Proof.
  intros HC Hm Hcov Hunc. rewrite computeC_run.
  destruct (@C_loop_stale delta omega bands m Hm Hcov Hunc
              (length omega) 0%nat C Num.zero Num.zero)
    as (C' & Hrun & Hget); try lia.
  rewrite Hrun. exists C'. split; [reflexivity|].
  apply Vec_get_some_at, Hget.
Qed.

Lemma computeC_stale_lookup_witness :
  (length Sample2.gapped <= length (Vec.make 3))%nat /\
  (1 < length Sample2.gapped)%nat /\
  covered Sample.bands (at_ Sample2.gapped 0) /\
  uncovered Sample.bands (at_ Sample2.gapped 1) /\
  exists C',
    computeC (Vec.make 3) (Sample.q 1 2) Sample2.gapped Sample.bands
      default_prec 53%Z = Some (C', 53%Z) /\
    at_ C' 1 =
    (ideal_D Sample.bands (at_ Sample2.gapped 0)
     + Sample.q 1 2 / - ideal_W Sample.bands (at_ Sample2.gapped 0))%Qc.
Proof.
  assert (H3 : covered Sample.bands (at_ Sample2.gapped 0)).
  { apply (@covered_by_band Sample.passband); [simpl; auto|reflexivity]. }
  assert (H1 : (length Sample2.gapped <= length (Vec.make 3))%nat)
    by (simpl; lia).
  assert (H2 : (1 < length Sample2.gapped)%nat) by (simpl; lia).
  split; [exact H1|]. split; [exact H2|]. split; [exact H3|].
  split; [exact sample_gap_uncovered|].
  apply (@computeC_stale_lookup (Vec.make 3) (Sample.q 1 2) Sample2.gapped
           Sample.bands default_prec 53%Z 0 H1 H2 H3 sample_gap_uncovered).
Defined.

(* ------------------------------------------------------------------ *)
(** ** The size of a group of the grouped product *)

Lemma stride_loop_visits (x : list mpreal) (i step : nat) (xi : mpreal)
  (fuel k : nat) (denom : mpreal) :
  stride_loop fuel x i step k xi denom =
  fold_left (fun d k' => (d * factor x i xi k')%Qc)
    (stride_visits fuel (length x) step k) denom.
Proof.
  revert k denom. induction fuel as [|fuel IH]; intros k denom;
    cbn [stride_loop stride_visits]; [reflexivity|].
  destruct (Nat.ltb_spec k (length x)) as [Hk|Hk].
  - rewrite (@Vec_get_at x k) by exact Hk. cbn [fold_left].
    rewrite IH. f_equal. unfold factor.
    destruct (Nat.eqb k i); [unfold Num.one; ring|reflexivity].
  - unfold Vec.get. rewrite (proj2 (nth_error_None x k)) by exact Hk.
    reflexivity.
Qed.

Lemma stride_visits_count (n step : nat) :
  (1 <= step)%nat ->
  forall fuel k,
    (length (stride_visits fuel n step k) * step <= (n - k) + (step - 1))%nat.
Proof.
  intros Hstep. induction fuel as [|fuel IH]; intros k;
    cbn [stride_visits]; [simpl; lia|].
  destruct (Nat.ltb_spec k n) as [Hk|Hk]; [|simpl; lia].
  specialize (IH (k + step)%nat). cbn [length].
  rewrite Nat.mul_succ_l.
  destruct (Nat.le_gt_cases (k + step) n) as [Hle|Hgt]; [lia|].
  destruct (length (stride_visits fuel n step (k + step))) as [|L].
  - lia.
  - rewrite Nat.mul_succ_l in IH. lia.
Qed.

Lemma stride_covers (n : nat) :
  (2 <= n)%nat -> (Z.of_nat n < 2 ^ 64)%Z -> (n <= 15 * stride n + 1)%nat.
Proof.
  intros Hn Hlt. rewrite (stride_value Hn Hlt).
  pose proof (Nat.div_mod_eq (n - 2) 15) as Hdiv.
  pose proof (Nat.mod_upper_bound (n - 2) 15). lia.
Qed.

(** The purpose of the stride: with [n >= 2] nodes, one run of the
    innermost loop multiplies [denom] by the factors of the indices
    [j, j + step, ...] below [n], and these are at most 16 (the factor of
    the index [i] itself being 1). *)
Theorem stride_group_at_most_16
  (x : list mpreal) (i j : nat) (xi denom : mpreal) :
  (2 <= length x)%nat -> (Z.of_nat (length x) < 2 ^ 64)%Z ->
  stride_loop (length x) x i (stride (length x)) j xi denom =
    fold_left (fun d k => (d * factor x i xi k)%Qc)
      (stride_visits (length x) (length x) (stride (length x)) j) denom /\
  (length (stride_visits (length x) (length x) (stride (length x)) j)
   <= 16)%nat.
Proof.
  intros Hn Hlt. split; [apply stride_loop_visits|].
  pose proof (stride_pos (length x)) as Hpos.
  pose proof (stride_covers Hn Hlt) as Hcov.
  pose proof (@stride_visits_count (length x) (stride (length x)) Hpos
                (length x) j) as Hcnt.
  nia.
Qed.

Lemma stride_group_at_most_16_witness :
  (2 <= length Sample.nodes)%nat /\
  (Z.of_nat (length Sample.nodes) < 2 ^ 64)%Z /\
  stride_loop (length Sample.nodes) Sample.nodes 1
      (stride (length Sample.nodes)) 0 (Sample.q 0 1) Num.one =
    fold_left (fun d k => (d * factor Sample.nodes 1 (Sample.q 0 1) k)%Qc)
      (stride_visits (length Sample.nodes) (length Sample.nodes)
         (stride (length Sample.nodes)) 0) Num.one /\
  (length (stride_visits (length Sample.nodes) (length Sample.nodes)
             (stride (length Sample.nodes)) 0) <= 16)%nat.
Proof.
  assert (H1 : (2 <= length Sample.nodes)%nat) by (simpl; lia).
  assert (H2 : (Z.of_nat (length Sample.nodes) < 2 ^ 64)%Z) by reflexivity.
  split; [exact H1|]. split; [exact H2|].
  apply (@stride_group_at_most_16 Sample.nodes 1 0 (Sample.q 0 1) Num.one
           H1 H2).
Defined.

(** The bound is reached: 16 nodes make one group of 16 indices. *)
Example stride_group_of_16 :
  stride 16 = 1%nat /\ length (stride_visits 16 16 (stride 16) 0) = 16%nat.
Proof. split; reflexivity. Qed.

(* ------------------------------------------------------------------ *)
(** ** Shifting the nodes *)

Lemma at_shifted (t : mpreal) (x : list mpreal) (k : nat) :
  (k < length x)%nat -> at_ (map (Qcplus t) x) k = (t + at_ x k)%Qc.
Proof.
  intros Hk. unfold at_.
  rewrite (nth_indep _ Num.zero (t + Num.zero)%Qc)
    by (rewrite length_map; exact Hk).
  apply map_nth.
Qed.

Lemma weight_formula_shifted (t : mpreal) (x : list mpreal) (i : nat) :
  (i < length x)%nat ->
  weight_formula (map (Qcplus t) x) i = weight_formula x i.
Proof.
  intros Hi. unfold weight_formula, weight_denom. rewrite length_map.
  f_equal. f_equal. apply map_ext_in. intros k Hk.
  unfold others in Hk. apply filter_In in Hk. destruct Hk as [Hk _].
  apply in_seq in Hk. rewrite !at_shifted by lia. ring.
Qed.

Lemma weights_formula_shifted (t : mpreal) (x : list mpreal) :
  weights_formula (map (Qcplus t) x) = weights_formula x.
Proof.
  unfold weights_formula. rewrite length_map. apply map_ext_in.
  intros i Hi. apply in_seq in Hi. apply weight_formula_shifted. lia.
Qed.

(** The weights depend on the differences of the nodes only: adding one
    constant [t] to every node changes nothing in what
    [barycentricWeights] returns. *)
Theorem barycentricWeights_shift_invariant
  (t : mpreal) (w x : list mpreal) (prec s : mp_prec_t) :
  barycentricWeights w (map (Qcplus t) x) prec s =
  barycentricWeights w x prec s.
Proof.
  destruct (Nat.lt_ge_cases (length w) (length x)) as [Hlt|Hge].
  - rewrite !barycentricWeights_run.
    rewrite !weights_loop_fail by (rewrite ?length_map; lia). reflexivity.
  - rewrite !barycentricWeights_closed by (rewrite ?length_map; exact Hge).
    rewrite weights_formula_shifted, length_map. reflexivity.
Qed.

(* ------------------------------------------------------------------ *)
(** ** The exact-match value of computeError and the samples of computeC *)

(** The samples [computeC] builds and the value [computeError] returns at
    a node fit together: at the node [x_i] the exact-match return gives
    [(C_i − D_i) · W_i], the weighted deviation of the sample from the ideal
    amplitude, which the general branch would compute from the interpolant
    through the samples. *)
Theorem computeError_matches_computeC
  (C w : list mpreal) (delta : mpreal) (x : list mpreal)
  (bands : list Band) (prec s : mp_prec_t) :
  NoDup x -> Forall (covered bands) x ->
  (forall i, (i < length x)%nat -> ideal_W bands (at_ x i) <> Num.zero) ->
  (length x <= length C)%nat ->
  exists C',
    computeC C delta x bands prec s = Some (C', s) /\
    forall i, (i < length x)%nat ->
      computeError (at_ x i) delta x C' w bands prec s =
      Some (((at_ C' i - ideal_D bands (at_ x i)) *
             ideal_W bands (at_ x i))%Qc, s).
Proof.
  intros Hnd Hcov HW HC.
  destruct (@computeC_spec C delta x bands prec s Hcov HC)
    as (C' & Hrun & _ & HC').
  exists C'. split; [exact Hrun|]. intros i Hi.
  rewrite computeError_run.
  rewrite (@error_loop_match (at_ x i) delta x i); try lia; try reflexivity.
  - rewrite (HC' i Hi), node_error_sign by (apply HW, Hi). reflexivity.
  - intros k Hk. apply distinct_at; try assumption; lia.
Qed.

Lemma sample_W_nonzero :
  forall i, (i < length Sample.nodes)%nat ->
    ideal_W Sample.bands (at_ Sample.nodes i) <> Num.zero.
Proof.
  intros i Hi. simpl in Hi. destruct i as [|[|[|i]]]; try lia; qc_neq.
Qed.

Lemma computeError_matches_computeC_witness :
  NoDup Sample.nodes /\ Forall (covered Sample.bands) Sample.nodes /\
  (forall i, (i < length Sample.nodes)%nat ->
     ideal_W Sample.bands (at_ Sample.nodes i) <> Num.zero) /\
  (length Sample.nodes <= length (Vec.make 3))%nat /\
  exists C',
    computeC (Vec.make 3) (Sample.q 1 2) Sample.nodes Sample.bands
      default_prec 53%Z = Some (C', 53%Z) /\
    forall i, (i < length Sample.nodes)%nat ->
      computeError (at_ Sample.nodes i) (Sample.q 1 2) Sample.nodes C'
        (weights_formula Sample.nodes) Sample.bands default_prec 53%Z =
      Some (((at_ C' i - ideal_D Sample.bands (at_ Sample.nodes i)) *
             ideal_W Sample.bands (at_ Sample.nodes i))%Qc, 53%Z).
Proof.
  assert (H4 : (length Sample.nodes <= length (Vec.make 3))%nat)
    by (simpl; lia).
  split; [exact sample_nodes_distinct|].
  split; [exact sample_nodes_covered|]. split; [exact sample_W_nonzero|].
  split; [exact H4|].
  apply (@computeError_matches_computeC (Vec.make 3)
           (weights_formula Sample.nodes) (Sample.q 1 2) Sample.nodes
           Sample.bands default_prec 53%Z sample_nodes_distinct
           sample_nodes_covered sample_W_nonzero H4).
Defined.

(* ------------------------------------------------------------------ *)
(** ** Fewer than two nodes *)

(** With a single node [x.size() - 2] wraps around: the loop over the
    groups is set up for more than [10^18] groups, all but the first of
    them empty, and the weight that comes out is the empty product's
    [1 / 1 = 1]. *)
Theorem barycentricWeights_single_node
  (a : mpreal) (w : list mpreal) (prec s : mp_prec_t) :
  (1 <= length w)%nat ->
  Z.of_nat (stride 1) = 1229782938247303442%Z /\
  barycentricWeights w [a] prec s = Some (Num.one :: tl w, s).
Proof.
  intros Hw. split.
  - unfold stride, SizeT.sub.
    rewrite Nat2Z.inj_add, Nat2Z.inj_div, Z2Nat.id
      by (apply Z.mod_pos_bound; reflexivity).
    reflexivity.
  - rewrite barycentricWeights_closed by exact Hw.
    destruct w as [|w0 w]; [simpl in Hw; lia|].
    cbn [length skipn tl]. unfold weights_formula. cbn [length seq map app].
    reflexivity.
Qed.

Lemma barycentricWeights_single_node_witness :
  (1 <= length (Vec.make 2))%nat /\
  Z.of_nat (stride 1) = 1229782938247303442%Z /\
  barycentricWeights (Vec.make 2) [Sample.q 3 1] default_prec 53%Z =
  Some (Num.one :: tl (Vec.make 2), 53%Z).
Proof.
  assert (H : (1 <= length (Vec.make 2))%nat) by (simpl; lia).
  split; [exact H|].
  apply (@barycentricWeights_single_node (Sample.q 3 1) (Vec.make 2)
           default_prec 53%Z H).
Defined.

(* ------------------------------------------------------------------ *)
(** ** A common factor of the weights *)

Lemma first_occurrence (q : mpreal) (x : list mpreal) :
  In q x ->
  exists m, (m < length x)%nat /\ at_ x m = q /\
            forall k, (k < m)%nat -> at_ x k <> q.
Proof.
  induction x as [|a l IH]; intros Hin; [contradiction|].
  destruct (Qc_eq_dec a q) as [->|Hne].
  - exists 0%nat. simpl. repeat split; [lia|]. intros; lia.
  - destruct Hin as [Ha|Hin]; [contradiction|].
    destruct (IH Hin) as (m & Hm & Hq & Hk).
    exists (S m). simpl. repeat split; [lia|exact Hq|].
    intros [|k] Hlt; [exact Hne|]. apply Hk. lia.
Qed.

Lemma approx_sums_scaled (c q : mpreal) (x C w : list mpreal) :
  approx_num q x C (map (Qcmult c) w) = (approx_num q x C w * c)%Qc /\
  approx_denom q x (map (Qcmult c) w) = (approx_denom q x w * c)%Qc.
Proof.
  unfold approx_num, approx_denom. split; rewrite <- sum_scaled;
    f_equal; apply map_ext; intros i; rewrite at_scaled;
    unfold Qcdiv; ring.
Qed.

(** The second barycentric form is a quotient of two sums that are both
    linear in the weights: multiplying every weight by the same non-zero
    [c] does not change what [computeApprox] returns (at a node through
    the exact match, elsewhere for a denominator sum that is not zero). *)
Theorem computeApprox_common_factor
  (c q : mpreal) (x C w : list mpreal) (prec s : mp_prec_t) :
  length C = length x -> length w = length x -> c <> Num.zero ->
  In q x \/ approx_denom q x w <> Num.zero ->
  computeApprox q x C (map (Qcmult c) w) prec s =
  computeApprox q x C w prec s.
Proof.
  intros HC Hw Hc Hq. rewrite !computeApprox_run.
  destruct (in_dec Qc_eq_dec q x) as [Hin|Hnin].
  - destruct (first_occurrence q x Hin) as (m & Hm & Hxm & Hk).
    rewrite !(@approx_loop_first_match q x C _ m);
      rewrite ?length_map; try lia; try assumption;
      try (intros k Hlt; apply Hk; lia).
    reflexivity.
  - destruct Hq as [Hin|Hd]; [contradiction|].
    rewrite !approx_loop_sums
      by first [rewrite ?length_map; lia
               | intros k Hk; apply not_in_at; [assumption|lia]].
    fold (approx_num q x C (map (Qcmult c) w))
         (approx_denom q x (map (Qcmult c) w))
         (approx_num q x C w) (approx_denom q x w).
    destruct (approx_sums_scaled c q x C w) as [-> ->].
    f_equal. f_equal. unfold Num.zero in *. rewrite !Qcplus_0_l.
    field. split; assumption.
Qed.

Lemma computeApprox_common_factor_witness :
  length (Vec.make 3) = length Sample.nodes /\
  length (weights_formula Sample.nodes) = length Sample.nodes /\
  Num.two <> Num.zero /\
  (In Sample2.gap Sample.nodes \/
   approx_denom Sample2.gap Sample.nodes (weights_formula Sample.nodes)
     <> Num.zero) /\
  computeApprox Sample2.gap Sample.nodes (Vec.make 3)
    (map (Qcmult Num.two) (weights_formula Sample.nodes)) default_prec 53%Z =
  computeApprox Sample2.gap Sample.nodes (Vec.make 3)
    (weights_formula Sample.nodes) default_prec 53%Z.
Proof.
  split; [reflexivity|]. split; [reflexivity|].
  split; [exact Num_two_neq_0|]. split; [right; exact sample_gap_denom|].
  apply (@computeApprox_common_factor Num.two Sample2.gap Sample.nodes
           (Vec.make 3) (weights_formula Sample.nodes) default_prec 53%Z
           eq_refl eq_refl Num_two_neq_0 (or_intror sample_gap_denom)).
Defined.
